(** * Digits packing puzzle: geometry, occupancy and the piece lifecycle reducer

    A shallow embedding of [lib/segments.ts], [lib/rotation.ts], [types] and
    the reducer of [lib/gameState.tsx], with the properties the
    specification states about them. *)

From stdpp Require Import gmap strings list pretty.
From Stdlib Require Import ZArith Lia Ascii.

Local Open Scope Z_scope.
Set Warnings "-clear-no-such-hyp".

(** ** Types ([types/index.ts]) *)

Inductive Orientation := horizontal | vertical.

Inductive PieceNumber := D0 | D1 | D2 | D3 | D4 | D5 | D6 | D7 | D8 | D9.

(** [Rotation] is the number of degrees; the code computes with it
    ([rotation / 90], [(rotation + delta + 360) % 360]), so it is kept as an
    integer. The values of the TypeScript type are 0, 90, 180 and 270. *)
Definition Rotation := Z.

Definition validRotation (r : Rotation) : Prop :=
  r = 0 ∨ r = 90 ∨ r = 180 ∨ r = 270.

Record Segment := mkSegment {
  seg_x : Z;
  seg_y : Z;
  seg_orientation : Orientation
}.

Record Piece := mkPiece {
  piece_id : string;
  piece_number : PieceNumber;
  piece_rotation : Rotation;
  piece_segments : list Segment
}.

Record BoardPosition := mkPos { pos_x : Z; pos_y : Z }.

Record PlacedPiece := mkPlaced {
  placed_piece : Piece;
  placed_position : BoardPosition
}.

Inductive SourceType := inventory_source | board_source.

Record DragState := mkDrag {
  drag_piece : Piece;
  sourceType : SourceType;
  sourcePosition : option BoardPosition;
  sourcePiece : option Piece
}.

(** [gridWidth], [gridHeight] and [totalSegments] of [BoardState] are the
    literal types 5, 4 and 49; they carry no information and are left out. *)
Record BoardState := mkBoard {
  placedPieces : list PlacedPiece;
  occupiedSegments : gset string
}.

Record GameState := mkState {
  board : BoardState;
  inventory : list Piece;
  dragState : option DragState
}.

#[global] Instance Orientation_eq_dec : EqDecision Orientation.
Proof. solve_decision. Defined.
#[global] Instance PieceNumber_eq_dec : EqDecision PieceNumber.
Proof. solve_decision. Defined.
#[global] Instance Segment_eq_dec : EqDecision Segment.
Proof. solve_decision. Defined.
#[global] Instance Piece_eq_dec : EqDecision Piece.
Proof. solve_decision. Defined.
#[global] Instance BoardPosition_eq_dec : EqDecision BoardPosition.
Proof. solve_decision. Defined.
#[global] Instance PlacedPiece_eq_dec : EqDecision PlacedPiece.
Proof. solve_decision. Defined.
#[global] Instance SourceType_eq_dec : EqDecision SourceType.
Proof. solve_decision. Defined.
#[global] Instance DragState_eq_dec : EqDecision DragState.
Proof. solve_decision. Defined.

(** ** Segment catalog ([lib/segments.ts]) *)

Definition hseg (x y : Z) : Segment := mkSegment x y horizontal.
Definition vseg (x y : Z) : Segment := mkSegment x y vertical.

Definition SEGMENT_PATTERNS (n : PieceNumber) : list Segment :=
  match n with
  | D0 => [hseg 0 0; vseg 1 0; hseg 0 1; vseg 0 0]
  | D1 => [vseg 1 0; vseg 1 1]
  | D2 => [hseg 0 0; vseg 1 0; hseg 0 1; vseg 0 1; hseg 0 2]
  | D3 => [hseg 0 0; vseg 1 0; hseg 0 1; vseg 1 1; hseg 0 2]
  | D4 => [vseg 0 0; hseg 0 1; vseg 1 0; vseg 1 1]
  | D5 => [hseg 0 0; vseg 0 0; hseg 0 1; vseg 1 1; hseg 0 2]
  | D6 => [hseg 0 0; vseg 0 0; hseg 0 1; vseg 0 1; hseg 0 2; vseg 1 1]
  | D7 => [hseg 0 0; vseg 1 0; vseg 1 1]
  | D8 => [hseg 0 0; vseg 1 0; vseg 1 1; hseg 0 2; vseg 0 1; vseg 0 0; hseg 0 1]
  | D9 => [hseg 0 0; vseg 1 0; vseg 1 1; hseg 0 2; vseg 0 0; hseg 0 1]
  end.

(** [`${segment.x},${segment.y},${orient}`]: the decimal rendering of the two
    integers, as [pretty] prints them. *)
Definition segmentToId (s : Segment) : string :=
  let orient := match seg_orientation s with
                | horizontal => "h"
                | vertical => "v"
                end in
  pretty (seg_x s) +:+ "," +:+ pretty (seg_y s) +:+ "," +:+ orient.

(** ** Rotation ([lib/rotation.ts]) *)

(** The bounding box starts from [Infinity] / [-Infinity]; [None] stands for
    the bound that no segment has touched yet. *)
Record BoundingBox := mkBBox {
  minX : option Z;
  minY : option Z;
  maxX : option Z;
  maxY : option Z
}.

Definition optMin (a : option Z) (b : Z) : option Z :=
  match a with None => Some b | Some a' => Some (Z.min a' b) end.

Definition optMax (a : option Z) (b : Z) : option Z :=
  match a with None => Some b | Some a' => Some (Z.max a' b) end.

Definition bboxStep (bb : BoundingBox) (seg : Segment) : BoundingBox :=
  match seg_orientation seg with
  | horizontal =>
      mkBBox (optMin (minX bb) (seg_x seg)) (optMin (minY bb) (seg_y seg))
             (optMax (maxX bb) (seg_x seg + 1)) (optMax (maxY bb) (seg_y seg))
  | vertical =>
      mkBBox (optMin (minX bb) (seg_x seg)) (optMin (minY bb) (seg_y seg))
             (optMax (maxX bb) (seg_x seg)) (optMax (maxY bb) (seg_y seg + 1))
  end.

Definition getBoundingBox (segments : list Segment) : BoundingBox :=
  fold_left bboxStep segments (mkBBox None None None None).

Definition rotateSegment90Clockwise (segment : Segment) : Segment :=
  match seg_orientation segment with
  | horizontal => mkSegment (seg_y segment) (- seg_x segment - 1) vertical
  | vertical => mkSegment (seg_y segment) (- seg_x segment) horizontal
  end.

(** [segments.map(...)] subtracts the box minimum from every segment; on the
    empty list nothing is mapped and the infinite bounds are never used. *)
Definition normalizeSegments (segments : list Segment) : list Segment :=
  let bbox := getBoundingBox segments in
  match minX bbox, minY bbox with
  | Some mx, Some my =>
      map (fun seg => mkSegment (seg_x seg - mx) (seg_y seg - my)
                                (seg_orientation seg)) segments
  | _, _ => segments
  end.

(** The loop [for (i = 0; i < times; i++)] with [times = rotation / 90] runs
    once for every natural number below [rotation / 90], that is
    ceil(rotation / 90) times, and not at all for a negative rotation. *)
Definition rotationTimes (rotation : Rotation) : nat :=
  Z.to_nat ((rotation + 89) / 90).

Definition rotateSegments (segments : list Segment) (rotation : Rotation)
  : list Segment :=
  if decide (rotation = 0) then segments
  else normalizeSegments
         (Nat.iter (rotationTimes rotation) (map rotateSegment90Clockwise)
                   segments).

Inductive Direction := clockwise | counterclockwise.

(** JavaScript's [%] truncates towards zero, as [Z.rem] does. *)
Definition rotatePiece (piece : Piece) (direction : Direction) : Piece :=
  let delta := match direction with clockwise => 90 | counterclockwise => -90 end in
  let newRotation := Z.rem (piece_rotation piece + delta + 360) 360 in
  let baseSegments := SEGMENT_PATTERNS (piece_number piece) in
  let rotatedSegments := rotateSegments baseSegments newRotation in
  mkPiece (piece_id piece) (piece_number piece) newRotation rotatedSegments.

Definition getPieceSegments (piece : Piece) : list Segment :=
  rotateSegments (SEGMENT_PATTERNS (piece_number piece)) (piece_rotation piece).

(** ** Occupancy ([lib/gameState.tsx]) *)

Definition getPieceSegmentPositions (piece : Piece) (position : BoardPosition)
  : list Segment :=
  map (fun seg => mkSegment (pos_x position + seg_x seg)
                            (pos_y position + seg_y seg)
                            (seg_orientation seg))
      (getPieceSegments piece).

(** The bounds test of [checkCollision], per orientation. *)
Definition outOfBounds (segment : Segment) : bool :=
  match seg_orientation segment with
  | horizontal =>
      (seg_x segment <? 0) || (seg_x segment >=? 5)
      || (seg_y segment <? 0) || (seg_y segment >? 4)
  | vertical =>
      (seg_x segment <? 0) || (seg_x segment >? 5)
      || (seg_y segment <? 0) || (seg_y segment >=? 4)
  end.

(** The [for ... of] loop with its two early returns. *)
Fixpoint collisionLoop (pieceSegments : list Segment)
    (occupied : gset string) : bool :=
  match pieceSegments with
  | [] => false
  | segment :: rest =>
      if decide (segmentToId segment ∈ occupied) then true
      else if outOfBounds segment then true
      else collisionLoop rest occupied
  end.

Definition checkCollision (piece : Piece) (position : BoardPosition)
    (occupied : gset string) : bool :=
  collisionLoop (getPieceSegmentPositions piece position) occupied.

Inductive Operation := op_add | op_remove.

Definition updateOccupiedSegments (occupied : gset string) (piece : Piece)
    (position : BoardPosition) (operation : Operation) : gset string :=
  fold_left
    (fun newSet segment =>
       match operation with
       | op_add => {[ segmentToId segment ]} ∪ newSet
       | op_remove => newSet ∖ {[ segmentToId segment ]}
       end)
    (getPieceSegmentPositions piece position) occupied.

(** ** The reducer ([lib/gameState.tsx]) *)

Inductive GameAction :=
| PICK_UP_PIECE (piece : Piece) (source : SourceType)
                (position : option BoardPosition)
| DROP_PIECE (position : BoardPosition)
| CANCEL_DRAG
| ROTATE_PIECE (pieceId : string) (direction : Direction)
| RETURN_TO_INVENTORY (piece : Piece)
| RESET_BOARD
| LOAD_STATE (payload : GameState).

Definition digitChar (n : PieceNumber) : string :=
  match n with
  | D0 => "0" | D1 => "1" | D2 => "2" | D3 => "3" | D4 => "4"
  | D5 => "5" | D6 => "6" | D7 => "7" | D8 => "8" | D9 => "9"
  end.

Definition allNumbers : list PieceNumber :=
  [D0; D1; D2; D3; D4; D5; D6; D7; D8; D9].

Definition initialPiece (n : PieceNumber) : Piece :=
  mkPiece ("piece-" +:+ digitChar n) n 0 (SEGMENT_PATTERNS n).

Definition getInitialState : GameState :=
  mkState (mkBoard [] ∅) (map initialPiece allNumbers) None.

Definition withDrag (state : GameState) (d : option DragState) : GameState :=
  mkState (board state) (inventory state) d.

Definition withOccupied (state : GameState) (occ : gset string)
    (d : option DragState) : GameState :=
  mkState (mkBoard (placedPieces (board state)) occ) (inventory state) d.

Definition hasId (pieceId : string) (p : Piece) : Prop := piece_id p = pieceId.
Definition placedHasId (pieceId : string) (p : PlacedPiece) : Prop :=
  piece_id (placed_piece p) = pieceId.

#[global] Instance hasId_dec pieceId p : Decision (hasId pieceId p).
Proof. unfold hasId. apply _. Defined.
#[global] Instance placedHasId_dec pieceId p : Decision (placedHasId pieceId p).
Proof. unfold placedHasId. apply _. Defined.

(** [placedPieces.map((p) => p.piece.id === piece.id ? { piece, position } : p)] *)
Definition replacePlaced (piece : Piece) (position : BoardPosition)
    (placed : list PlacedPiece) : list PlacedPiece :=
  map (fun p => if decide (piece_id (placed_piece p) = piece_id piece)
                then mkPlaced piece position else p)
      placed.

(** The part of [DROP_PIECE] after the collision test: "place on board". It
    is reached when there is no collision, and also when a collision finds
    neither return branch applicable. *)
Definition dropPlace (state : GameState) (d : DragState)
    (position : BoardPosition) : GameState :=
  let piece := drag_piece d in
  let newOccupiedSegments :=
    updateOccupiedSegments (occupiedSegments (board state)) piece position
                           op_add in
  match sourceType d, sourcePosition d with
  | inventory_source, _ =>
      let newInventory :=
        filter (fun p => piece_id p ≠ piece_id piece) (inventory state) in
      mkState (mkBoard (placedPieces (board state) ++ [mkPlaced piece position])
                       newOccupiedSegments)
              newInventory None
  | board_source, Some _ =>
      let newPlacedPieces :=
        replacePlaced piece position (placedPieces (board state)) in
      mkState (mkBoard newPlacedPieces newOccupiedSegments)
              (inventory state) None
  | board_source, None => withDrag state None
  end.

(** The "return to source" of [DROP_PIECE] and the body of [CANCEL_DRAG];
    [None] when neither branch returns. *)
Definition returnToSource (state : GameState) (d : DragState)
  : option GameState :=
  match sourceType d, sourcePosition d with
  | inventory_source, _ => Some (withDrag state None)
  | board_source, Some sourcePos =>
      let restorePiece := default (drag_piece d) (sourcePiece d) in
      Some (withOccupied state
              (updateOccupiedSegments (occupiedSegments (board state))
                                      restorePiece sourcePos op_add)
              None)
  | board_source, None => None
  end.

Definition gameReducer (state : GameState) (action : GameAction) : GameState :=
  match action with
  | PICK_UP_PIECE piece source position =>
      match source, position with
      | board_source, Some pos =>
          withOccupied state
            (updateOccupiedSegments (occupiedSegments (board state)) piece pos
                                    op_remove)
            (Some (mkDrag piece source (Some pos) (Some piece)))
      | _, _ => withDrag state (Some (mkDrag piece source None None))
      end
  | DROP_PIECE position =>
      match dragState state with
      | None => state
      | Some d =>
          if checkCollision (drag_piece d) position
                            (occupiedSegments (board state))
          then match returnToSource state d with
               | Some state' => state'
               | None => dropPlace state d position
               end
          else dropPlace state d position
      end
  | CANCEL_DRAG =>
      match dragState state with
      | None => state
      | Some d =>
          match returnToSource state d with
          | Some state' => state'
          | None => withDrag state None
          end
      end
  | ROTATE_PIECE pieceId direction =>
      let inventoryIndex := list_find (hasId pieceId) (inventory state) in
      let newInventory :=
        match inventoryIndex with
        | Some (i, piece) => <[i := rotatePiece piece direction]> (inventory state)
        | None => inventory state
        end in
      let dragged :=
        match dragState state with
        | Some d => bool_decide (piece_id (drag_piece d) = pieceId)
        | None => false
        end in
      let newDragState :=
        match dragState state with
        | Some d =>
            if dragged
            then Some (mkDrag (rotatePiece (drag_piece d) direction)
                              (sourceType d) (sourcePosition d) (sourcePiece d))
            else Some d
        | None => None
        end in
      match inventoryIndex, dragged with
      | None, false => state
      | _, _ => mkState (board state) newInventory newDragState
      end
  | RETURN_TO_INVENTORY piece =>
      match dragState state with
      | Some (mkDrag _ inventory_source _ _) => withDrag state None
      | _ =>
          let newPlacedPieces :=
            filter (fun p => piece_id (placed_piece p) ≠ piece_id piece)
                   (placedPieces (board state)) in
          let placedPiece :=
            list_find (placedHasId (piece_id piece))
                      (placedPieces (board state)) in
          let newOccupiedSegments :=
            match placedPiece with
            | Some (_, pp) =>
                updateOccupiedSegments (occupiedSegments (board state))
                  (placed_piece pp) (placed_position pp) op_remove
            | None => occupiedSegments (board state)
            end in
          let isAlreadyInInventory :=
            bool_decide (Exists (hasId (piece_id piece)) (inventory state)) in
          mkState (mkBoard newPlacedPieces newOccupiedSegments)
                  (if isAlreadyInInventory then inventory state
                   else inventory state ++ [piece])
                  None
      end
  | RESET_BOARD => getInitialState
  | LOAD_STATE payload => payload
  end.

Definition runActions (state : GameState) (actions : list GameAction)
  : GameState :=
  fold_left gameReducer actions state.

(** ** Vocabulary of the specification *)

(** The valid range of a board segment, per orientation. *)
Definition inRange (segment : Segment) : Prop :=
  match seg_orientation segment with
  | horizontal => 0 ≤ seg_x segment ≤ 4 ∧ 0 ≤ seg_y segment ≤ 4
  | vertical => 0 ≤ seg_x segment ≤ 5 ∧ 0 ≤ seg_y segment ≤ 3
  end.

(** The absolute segment identities of a piece at a position. *)
Definition footprint (piece : Piece) (position : BoardPosition) : gset string :=
  list_to_set (map segmentToId (getPieceSegmentPositions piece position)).

Definition placedFootprint (pp : PlacedPiece) : gset string :=
  footprint (placed_piece pp) (placed_position pp).

(** The union of the identities contributed by all placed pieces. *)
Definition placedUnion (pps : list PlacedPiece) : gset string :=
  ⋃ (map placedFootprint pps).

Definition placedId (pp : PlacedPiece) : string := piece_id (placed_piece pp).

Definition inventoryIds (s : GameState) : list string :=
  map piece_id (inventory s).

Definition placedIds (s : GameState) : list string :=
  map placedId (placedPieces (board s)).

(** Minimum raw anchor coordinates of a segment list, as [getBoundingBox]
    computes them. *)
Definition minAnchorX (segments : list Segment) : option Z :=
  minX (getBoundingBox segments).
Definition minAnchorY (segments : list Segment) : option Z :=
  minY (getBoundingBox segments).

Definition rotateTimes (n : nat) (direction : Direction) (piece : Piece)
  : Piece :=
  Nat.iter n (fun p => rotatePiece p direction) piece.

(** Single ownership as the specification words it: the dragged id is in
    neither collection, and no id is in both collections. *)
Definition singleOwner (s : GameState) : Prop :=
  (∀ d, dragState s = Some d →
        (piece_id (drag_piece d) ∉ inventoryIds s)
        ∧ (piece_id (drag_piece d) ∉ placedIds s))
  ∧ (∀ i, i ∈ inventoryIds s → i ∉ placedIds s).

(** Single ownership as the reducer keeps it: a lifted piece stays listed at
    its source until the drop succeeds. *)
Definition ownedAtSource (s : GameState) : Prop :=
  (∀ i, i ∈ inventoryIds s → i ∉ placedIds s)
  ∧ (∀ d, dragState s = Some d →
          match sourceType d with
          | inventory_source =>
              piece_id (drag_piece d) ∈ inventoryIds s
              ∧ piece_id (drag_piece d) ∉ placedIds s
          | board_source =>
              piece_id (drag_piece d) ∈ placedIds s
              ∧ piece_id (drag_piece d) ∉ inventoryIds s
          end).

(** Occupancy against the placed pieces, with the relaxation of a board
    pickup written out. *)
Definition occupancyMatches (s : GameState) : Prop :=
  let occ := occupiedSegments (board s) in
  let placed := placedPieces (board s) in
  match dragState s with
  | None => occ = placedUnion placed
  | Some d =>
      match sourceType d with
      | inventory_source => occ = placedUnion placed
      | board_source =>
          ∃ sp pos, sourcePiece d = Some sp ∧ sourcePosition d = Some pos
                    ∧ mkPlaced sp pos ∈ placed
                    ∧ occ = placedUnion placed ∖ footprint sp pos
      end
  end.

(** Placed pieces with different ids cover different segments. *)
Definition disjointFootprints (placed : list PlacedPiece) : Prop :=
  ∀ a b, a ∈ placed → b ∈ placed → placedId a ≠ placedId b →
         placedFootprint a ## placedFootprint b.

(** The state invariant of the reducer. *)
Definition consistent (s : GameState) : Prop :=
  let placed := placedPieces (board s) in
  NoDup (map placedId placed)
  ∧ disjointFootprints placed
  ∧ (∀ i, i ∈ inventoryIds s → i ∉ placedIds s)
  ∧ occupancyMatches s
  ∧ (∀ d, dragState s = Some d →
          match sourceType d with
          | inventory_source => piece_id (drag_piece d) ∈ inventoryIds s
          | board_source =>
              ∃ sp, sourcePiece d = Some sp
                    ∧ piece_id (drag_piece d) = piece_id sp
          end).

(** What the calling layer guarantees when it dispatches an action: a pickup
    names a piece that is where the action says it is and starts no second
    drag (the board dispatches its pickup twice, which is allowed); a return
    to the inventory during a drag names the dragged piece; a loaded state is
    a consistent one. The other actions are unconstrained. *)
Definition allowed (s : GameState) (a : GameAction) : Prop :=
  match a with
  | PICK_UP_PIECE piece inventory_source _ =>
      dragState s = None ∧ piece ∈ inventory s
  | PICK_UP_PIECE piece board_source position =>
      ∃ pos, position = Some pos
             ∧ mkPlaced piece pos ∈ placedPieces (board s)
             ∧ (dragState s = None
                ∨ dragState s
                  = Some (mkDrag piece board_source (Some pos) (Some piece)))
  | RETURN_TO_INVENTORY piece =>
      match dragState s with
      | Some d => piece_id piece = piece_id (drag_piece d)
      | None => True
      end
  | LOAD_STATE payload => consistent payload
  | DROP_PIECE _ | CANCEL_DRAG | ROTATE_PIECE _ _ | RESET_BOARD => True
  end.

Inductive reachable : GameState → Prop :=
| reachable_initial : reachable getInitialState
| reachable_step s a :
    reachable s → allowed s a → reachable (gameReducer s a).

(** States used in the scenarios. *)
Definition afterPlacingOne : GameState :=
  runActions getInitialState
    [PICK_UP_PIECE (initialPiece D1) inventory_source None;
     DROP_PIECE (mkPos 2 1)].

Definition draggingFromBoard : GameState :=
  runActions afterPlacingOne
    [PICK_UP_PIECE (initialPiece D1) board_source (Some (mkPos 2 1))].

Definition draggingZeroWithOnePlaced : GameState :=
  runActions afterPlacingOne
    [PICK_UP_PIECE (initialPiece D0) inventory_source None].

(** ** More of the code *)

(** [getAllBoardSegments] ([lib/segments.ts]): the two nested loops, the
    horizontal rows first, then the vertical columns. *)
Definition getAllBoardSegments : list Segment :=
  flat_map (fun y => map (fun x => mkSegment x y horizontal) (seqZ 0 5))
           (seqZ 0 5)
  ++ flat_map (fun x => map (fun y => mkSegment x y vertical) (seqZ 0 4))
              (seqZ 0 6).

(** [wouldBeValidPlacement] ([components/Board.tsx]): the preview's own test,
    bounds first and occupancy second, over the board's [occupiedSegments]
    prop. Its bounds conditions are those of [checkCollision]. *)
Fixpoint validPlacementLoop (segments : list Segment)
    (position : BoardPosition) (occupied : gset string) : bool :=
  match segments with
  | [] => true
  | seg :: rest =>
      let absoluteSeg := mkSegment (pos_x position + seg_x seg)
                                   (pos_y position + seg_y seg)
                                   (seg_orientation seg) in
      if outOfBounds absoluteSeg then false
      else if decide (segmentToId absoluteSeg ∈ occupied) then false
      else validPlacementLoop rest position occupied
  end.

Definition wouldBeValidPlacement (occupied : gset string) (piece : Piece)
    (position : BoardPosition) : bool :=
  validPlacementLoop (getPieceSegments piece) position occupied.

(** A segment moved by (dx, dy). *)
Definition translateSegment (dx dy : Z) (seg : Segment) : Segment :=
  mkSegment (seg_x seg + dx) (seg_y seg + dy) (seg_orientation seg).

(** The far end of a segment on each axis, as [getBoundingBox] counts it. *)
Definition segmentEndX (seg : Segment) : Z :=
  match seg_orientation seg with
  | horizontal => seg_x seg + 1
  | vertical => seg_x seg
  end.
Definition segmentEndY (seg : Segment) : Z :=
  match seg_orientation seg with
  | horizontal => seg_y seg
  | vertical => seg_y seg + 1
  end.

(** Every placed piece lies on the board. *)
Definition onBoard (s : GameState) : Prop :=
  ∀ pp seg,
    pp ∈ placedPieces (board s) →
    seg ∈ getPieceSegmentPositions (placed_piece pp) (placed_position pp) →
    seg ∈ getAllBoardSegments.

Definition loadsOnBoard (a : GameAction) : Prop :=
  match a with
  | LOAD_STATE payload => onBoard payload
  | _ => True
  end.

(** A string without a comma: what a printed integer is. *)
Fixpoint commaFree (s : string) : Prop :=
  match s with
  | EmptyString => True
  | String a rest => a ≠ ","%char ∧ commaFree rest
  end.

(** * Properties *)

(** ** Geometry *)

(** C5: a horizontal segment at (x, y) turns into the vertical segment at
    (y, -x-1), a vertical one into the horizontal segment at (y, -x). *)
Theorem rotateSegment90Clockwise_spec (x y : Z) :
  rotateSegment90Clockwise (mkSegment x y horizontal)
  = mkSegment y (- x - 1) vertical
  ∧ rotateSegment90Clockwise (mkSegment x y vertical)
    = mkSegment y (- x) horizontal.
Proof. split; reflexivity. Qed.

(** C3 as stated fails: digit 1 at rotation 0 keeps its base pattern, whose
    smallest x anchor is 1. *)
Lemma derived_min_anchor_not_always_zero :
  ¬ (∀ (d : PieceNumber) (r : Rotation) (i : string) (segs : list Segment),
        validRotation r →
        minAnchorX (getPieceSegments (mkPiece i d r segs)) = Some 0
        ∧ minAnchorY (getPieceSegments (mkPiece i d r segs)) = Some 0).
Proof.
  intros Hall.
  destruct (Hall D1 0 "piece-1" (SEGMENT_PATTERNS D1)) as [Hx _].
  { left; reflexivity. }
  vm_compute in Hx. discriminate Hx.
Qed.

(** C3 (amended): for every digit and every rotation in {0, 90, 180, 270}
    the derived segment list has minimum y anchor 0, and minimum x anchor 0
    except for digit 1 at rotation 0, where it is 1. *)
Theorem derived_min_anchor (d : PieceNumber) (r : Rotation) (i : string)
    (segs : list Segment) :
  validRotation r →
  minAnchorY (getPieceSegments (mkPiece i d r segs)) = Some 0
  ∧ minAnchorX (getPieceSegments (mkPiece i d r segs))
    = Some (if decide (d = D1 ∧ r = 0) then 1 else 0).
Proof.
  intros [-> | [-> | [-> | ->]]]; destruct d; split; vm_compute; reflexivity.
Qed.

Lemma derived_min_anchor_witness :
  validRotation 90
  ∧ minAnchorY (getPieceSegments (mkPiece "piece-1" D1 90 [])) = Some 0
  ∧ minAnchorX (getPieceSegments (mkPiece "piece-1" D1 90 [])) = Some 0.
Proof.
  split.
  - right; left; reflexivity.
  - apply (derived_min_anchor D1 90 "piece-1" []). right; left; reflexivity.
Defined.

(** C4: four clockwise steps, or four counterclockwise steps, give back the
    piece: same rotation, same segment list (and same id and number). *)
Theorem rotatePiece_four_times (p : Piece) :
  validRotation (piece_rotation p) →
  piece_segments p = getPieceSegments p →
  rotateTimes 4 clockwise p = p ∧ rotateTimes 4 counterclockwise p = p.
Proof.
  destruct p as [i n r segs]. cbn [piece_rotation piece_segments].
  intros Hr ->.
  destruct Hr as [-> | [-> | [-> | ->]]]; destruct n; split; reflexivity.
Qed.

Lemma rotatePiece_four_times_witness :
  rotateTimes 4 clockwise (initialPiece D7) = initialPiece D7
  ∧ rotateTimes 4 counterclockwise (initialPiece D7) = initialPiece D7.
Proof.
  apply (rotatePiece_four_times (initialPiece D7)).
  - left; reflexivity.
  - reflexivity.
Defined.

(** ** Occupancy index *)

Lemma map_is_fmap {A B} (f : A → B) (l : list A) : map f l = f <$> l.
Proof. reflexivity. Qed.

Lemma outOfBounds_true segment :
  outOfBounds segment = true ↔ ¬ inRange segment.
Proof.
  unfold outOfBounds, inRange.
  destruct (seg_orientation segment);
    rewrite !orb_true_iff, ?Z.ltb_lt, ?Z.gtb_gt, ?Z.geb_ge; lia.
Qed.

Lemma collisionLoop_true segments occupied :
  collisionLoop segments occupied = true
  ↔ ∃ segment, segment ∈ segments
               ∧ (¬ inRange segment ∨ segmentToId segment ∈ occupied).
Proof.
  induction segments as [| segment rest IH]; simpl.
  - split; [discriminate |]. intros (? & Hin & _). inversion Hin.
  - destruct (decide (segmentToId segment ∈ occupied)) as [Hocc | Hfree].
    + split; [| reflexivity]. intros _. exists segment. split; [left | auto].
    + destruct (outOfBounds segment) eqn:Hout.
      * split; [| reflexivity]. intros _. exists segment.
        split; [left |]. left. by apply outOfBounds_true.
      * rewrite IH. split.
        -- intros (s & Hin & Hs). exists s. split; [by right | done].
        -- intros (s & Hin & Hs). apply elem_of_cons in Hin as [-> | Hin].
           ++ destruct Hs as [Hs | Hs]; [| done].
              apply outOfBounds_true in Hs. congruence.
           ++ by exists s.
Qed.

(** C6: the collision check answers true exactly when some absolute segment
    of the piece at the position is out of range for its orientation or has
    its identity in the occupied set. *)
Theorem checkCollision_spec (piece : Piece) (position : BoardPosition)
    (occupied : gset string) :
  checkCollision piece position occupied = true
  ↔ ∃ segment, segment ∈ getPieceSegmentPositions piece position
               ∧ (¬ inRange segment ∨ segmentToId segment ∈ occupied).
Proof. apply collisionLoop_true. Qed.

Lemma checkCollision_false_disjoint piece position occupied :
  checkCollision piece position occupied = false →
  footprint piece position ## occupied.
Proof.
  intros Hfalse i Hin Hocc.
  apply elem_of_list_to_set in Hin. rewrite map_is_fmap in Hin.
  apply list_elem_of_fmap in Hin as (segment & -> & Hseg).
  assert (collisionLoop (getPieceSegmentPositions piece position) occupied
          = true) as Htrue.
  { apply collisionLoop_true. exists segment. auto. }
  unfold checkCollision in Hfalse. congruence.
Qed.

Lemma updateOccupiedSegments_add occupied piece position :
  updateOccupiedSegments occupied piece position op_add
  = occupied ∪ footprint piece position.
Proof.
  unfold updateOccupiedSegments, footprint.
  generalize (getPieceSegmentPositions piece position) as segments.
  intros segments. revert occupied.
  induction segments as [| segment rest IH]; intros occupied; simpl.
  - set_solver.
  - rewrite IH. set_solver.
Qed.

Lemma updateOccupiedSegments_remove occupied piece position :
  updateOccupiedSegments occupied piece position op_remove
  = occupied ∖ footprint piece position.
Proof.
  unfold updateOccupiedSegments, footprint.
  generalize (getPieceSegmentPositions piece position) as segments.
  intros segments. revert occupied.
  induction segments as [| segment rest IH]; intros occupied; simpl.
  - set_solver.
  - rewrite IH. set_solver.
Qed.

Lemma elem_of_placedUnion i placed :
  i ∈ placedUnion placed ↔ ∃ pp, pp ∈ placed ∧ i ∈ placedFootprint pp.
Proof.
  unfold placedUnion. rewrite elem_of_union_list. split.
  - intros (X & HX & Hi). rewrite map_is_fmap in HX.
    apply list_elem_of_fmap in HX as (pp & -> & Hpp). eauto.
  - intros (pp & Hpp & Hi). exists (placedFootprint pp). split; [| done].
    rewrite map_is_fmap. by apply list_elem_of_fmap_2.
Qed.

Lemma placedFootprint_subseteq pp placed :
  pp ∈ placed → placedFootprint pp ⊆ placedUnion placed.
Proof. intros Hpp i Hi. apply elem_of_placedUnion. eauto. Qed.

(** ** The concrete scenario *)

(** C8: from the initial state (10 pieces in inventory), picking up piece-1
    from the inventory and dropping it at (2,1) leaves 9 pieces in the
    inventory, none of them piece-1, one placed entry (piece-1 at (2,1)), and
    exactly the two identities of (3,1,vertical) and (3,2,vertical) occupied. *)
Theorem scenario_place_piece_1 :
  length (inventory getInitialState) = 10%nat
  ∧ piece_id (initialPiece D1) = "piece-1"
  ∧ length (inventory afterPlacingOne) = 9%nat
  ∧ ("piece-1" ∉ inventoryIds afterPlacingOne)
  ∧ placedPieces (board afterPlacingOne)
    = [mkPlaced (initialPiece D1) (mkPos 2 1)]
  ∧ occupiedSegments (board afterPlacingOne)
    = {[ segmentToId (mkSegment 3 1 vertical);
         segmentToId (mkSegment 3 2 vertical) ]}
  ∧ segmentToId (mkSegment 3 1 vertical) = "3,1,v"
  ∧ segmentToId (mkSegment 3 2 vertical) = "3,2,v"
  ∧ dragState afterPlacingOne = None.
Proof.
  repeat split; try reflexivity.
  vm_compute. intros Hin.
  repeat (apply elem_of_cons in Hin as [Hin | Hin]; [discriminate Hin |]).
  inversion Hin.
Qed.

(** ** Lists of placed pieces *)

Section PlacedLists.
Implicit Types (placed : list PlacedPiece) (pp : PlacedPiece).

Lemma placedId_inj placed a b :
  NoDup (map placedId placed) → a ∈ placed → b ∈ placed →
  placedId a = placedId b → a = b.
Proof.
  induction placed as [| x l IH]; simpl; intros Hnd Ha Hb Hid.
  - inversion Ha.
  - apply NoDup_cons in Hnd as [Hx Hnd].
    apply elem_of_cons in Ha as [-> | Ha];
      apply elem_of_cons in Hb as [-> | Hb]; auto.
    + exfalso. apply Hx. rewrite Hid, map_is_fmap.
      by apply list_elem_of_fmap_2.
    + exfalso. apply Hx. rewrite <- Hid, map_is_fmap.
      by apply list_elem_of_fmap_2.
Qed.

Lemma placedId_elem_of placed pp :
  pp ∈ placed → placedId pp ∈ map placedId placed.
Proof. intros Hpp. rewrite map_is_fmap. by apply list_elem_of_fmap_2. Qed.

Lemma NoDup_placedId_filter (P : PlacedPiece → Prop)
    `{∀ x, Decision (P x)} placed :
  NoDup (map placedId placed) → NoDup (map placedId (filter P placed)).
Proof.
  induction placed as [| x l IH]; simpl; intros Hnd; [constructor |].
  apply NoDup_cons in Hnd as [Hx Hnd].
  rewrite filter_cons. destruct (decide (P x)); simpl; [| auto].
  apply NoDup_cons. split; [| auto].
  intros Hin. apply Hx. rewrite map_is_fmap in *.
  apply list_elem_of_fmap in Hin as (y & -> & Hy).
  apply list_elem_of_filter in Hy as [_ Hy]. by apply list_elem_of_fmap_2.
Qed.

Lemma disjointFootprints_filter (P : PlacedPiece → Prop)
    `{∀ x, Decision (P x)} placed :
  disjointFootprints placed → disjointFootprints (filter P placed).
Proof.
  intros Hdisj a b Ha Hb. apply list_elem_of_filter in Ha as [_ Ha].
  apply list_elem_of_filter in Hb as [_ Hb]. by apply Hdisj.
Qed.

Lemma placedUnion_app placed pp :
  placedUnion (placed ++ [pp]) = placedUnion placed ∪ placedFootprint pp.
Proof.
  apply set_eq. intros i.
  rewrite elem_of_union, !elem_of_placedUnion. split.
  - intros (q & Hq & Hi). apply elem_of_app in Hq as [Hq | Hq]; [eauto |].
    apply list_elem_of_singleton in Hq as ->. by right.
  - intros [(q & Hq & Hi) | Hi].
    + exists q. split; [| done]. apply elem_of_app. by left.
    + exists pp. split; [| done]. apply elem_of_app. right. constructor.
Qed.

Lemma placedUnion_without placed pp :
  NoDup (map placedId placed) → disjointFootprints placed → pp ∈ placed →
  placedUnion placed ∖ placedFootprint pp
  = placedUnion (filter (λ q, placedId q ≠ placedId pp) placed).
Proof.
  intros Hnd Hdisj Hpp. apply set_eq. intros i.
  rewrite elem_of_difference, !elem_of_placedUnion. split.
  - intros [(q & Hq & Hi) Hnot]. exists q. split; [| done].
    apply list_elem_of_filter. split; [| done].
    intros Hid. apply Hnot.
    by rewrite <- (placedId_inj placed q pp Hnd Hq Hpp Hid).
  - intros (q & Hq & Hi). apply list_elem_of_filter in Hq as [Hid Hq].
    split; [eauto |]. intros Hipp. by apply (Hdisj q pp Hq Hpp Hid i).
Qed.

Lemma filter_absent_id placed (i : string) :
  i ∉ map placedId placed → filter (λ q, placedId q ≠ i) placed = placed.
Proof.
  induction placed as [| x l IH]; simpl; intros Hi; [done |].
  rewrite filter_cons. apply not_elem_of_cons in Hi as [Hne Hi].
  destruct (decide (placedId x ≠ i)) as [_ | Hn]; [by rewrite IH |].
  exfalso. apply Hn. congruence.
Qed.

Lemma replacePlaced_ids piece position placed :
  map placedId (replacePlaced piece position placed) = map placedId placed.
Proof.
  unfold replacePlaced. induction placed as [| x l IH]; simpl; [done |].
  rewrite IH. f_equal. by destruct (decide _).
Qed.

Lemma elem_of_replacePlaced piece position placed q :
  q ∈ replacePlaced piece position placed
  ↔ (q = mkPlaced piece position ∧ piece_id piece ∈ map placedId placed)
    ∨ (q ∈ placed ∧ placedId q ≠ piece_id piece).
Proof.
  unfold replacePlaced. rewrite !map_is_fmap, list_elem_of_fmap. split.
  - intros (p & -> & Hp). destruct (decide _) as [Hid | Hid].
    + left. split; [done |]. rewrite <- Hid.
      by apply (list_elem_of_fmap_2 placedId).
    + by right.
  - intros [[-> Hin] | [Hq Hid]].
    + apply list_elem_of_fmap in Hin as (p & Hid & Hp).
      exists p. split; [| done]. unfold placedId in Hid.
      by rewrite decide_True.
    + exists q. split; [| done]. by rewrite decide_False.
Qed.

Lemma placedUnion_replacePlaced piece position placed :
  piece_id piece ∈ map placedId placed →
  placedUnion (replacePlaced piece position placed)
  = placedUnion (filter (λ q, placedId q ≠ piece_id piece) placed)
    ∪ footprint piece position.
Proof.
  intros Hin. apply set_eq. intros i.
  rewrite elem_of_union, !elem_of_placedUnion. split.
  - intros (q & Hq & Hi).
    apply elem_of_replacePlaced in Hq as [[-> _] | [Hq Hid]].
    + by right.
    + left. exists q. split; [| done]. by apply list_elem_of_filter.
  - intros [(q & Hq & Hi) | Hi].
    + apply list_elem_of_filter in Hq as [Hid Hq]. exists q. split; [| done].
      apply elem_of_replacePlaced. by right.
    + exists (mkPlaced piece position). split; [| done].
      apply elem_of_replacePlaced. by left.
Qed.
End PlacedLists.

(** ** Rotation keeps identifiers *)

Lemma rotatePiece_id piece direction :
  piece_id (rotatePiece piece direction) = piece_id piece.
Proof. reflexivity. Qed.

Lemma rotate_in_inventory_ids (inv : list Piece) i piece direction :
  inv !! i = Some piece →
  map piece_id (<[i := rotatePiece piece direction]> inv) = map piece_id inv.
Proof.
  intros Hi. rewrite !map_is_fmap, list_fmap_insert, rotatePiece_id.
  apply list_insert_id. by rewrite list_lookup_fmap, Hi.
Qed.

(** ** The reducer keeps the invariant *)

Ltac unfold_state :=
  unfold consistent, occupancyMatches, inventoryIds, placedIds, withDrag,
    withOccupied in *;
  cbn [board placedPieces occupiedSegments inventory dragState drag_piece
       sourceType sourcePosition sourcePiece] in *.

Lemma consistent_initial : consistent getInitialState.
Proof.
  unfold getInitialState. unfold_state.
  split; [constructor |]. split; [intros a b Ha; inversion Ha |].
  split; [intros i _ Hin; inversion Hin |].
  split; [reflexivity | intros d Hd; discriminate Hd].
Qed.

Lemma consistent_pick_up s piece source position :
  consistent s → allowed s (PICK_UP_PIECE piece source position) →
  consistent (gameReducer s (PICK_UP_PIECE piece source position)).
Proof.
  destruct s as [[placed occ] inv drag].
  intros (Hnd & Hdisj & Hinv & Hocc & Hdrag) Hallowed.
  destruct source; cbn [allowed] in Hallowed; unfold_state.
  - destruct Hallowed as [-> Hin].
    replace (gameReducer _ _) with
      (mkState (mkBoard placed occ) inv
         (Some (mkDrag piece inventory_source None None)))
      by (by destruct position).
    unfold_state. repeat (split; [done |]).
    intros d [= <-]. cbn. rewrite map_is_fmap. by apply list_elem_of_fmap_2.
  - destruct Hallowed as (pos & -> & Hplaced & Hfree).
    cbn [gameReducer]. unfold_state. rewrite updateOccupiedSegments_remove.
    repeat (split; [done |]). split.
    + exists piece, pos. repeat (split; [done |]).
      destruct Hfree as [-> | ->]; [by rewrite Hocc |].
      cbn in Hocc. destruct Hocc as (sp & pos' & [= <-] & [= <-] & _ & ->).
      set_solver.
    + intros d [= <-]. cbn. eauto.
Qed.

Lemma returnToSource_consistent s d :
  consistent s → dragState s = Some d →
  ∃ s', returnToSource s d = Some s'
        ∧ consistent s'
        ∧ dragState s' = None
        ∧ placedPieces (board s') = placedPieces (board s)
        ∧ inventory s' = inventory s.
Proof.
  destruct s as [[placed occ] inv drag].
  intros (Hnd & Hdisj & Hinv & Hocc & Hdrag) Hd.
  unfold_state. subst drag. specialize (Hdrag d eq_refl).
  destruct d as [piece [] spos spiece]; unfold returnToSource; unfold_state.
  - eexists. split; [reflexivity |]. unfold_state. by repeat split.
  - destruct Hocc as (sp & pos & -> & -> & Hin & ->).
    eexists. split; [reflexivity |]. unfold_state.
    split; [| done]. do 3 (split; [done |]). split; [| done].
    rewrite updateOccupiedSegments_add. cbn [default].
    pose proof (placedFootprint_subseteq _ _ Hin) as Hsub.
    change (placedFootprint (mkPlaced sp pos)) with (footprint sp pos) in Hsub.
    apply set_eq. intros i.
    rewrite elem_of_union, elem_of_difference.
    destruct (decide (i ∈ footprint sp pos)); set_solver.
Qed.

Lemma dropPlace_consistent s d position :
  consistent s → dragState s = Some d →
  checkCollision (drag_piece d) position (occupiedSegments (board s)) = false →
  consistent (dropPlace s d position).
Proof.
  destruct s as [[placed occ] inv drag].
  intros (Hnd & Hdisj & Hinv & Hocc & Hdrag) Hd Hfree.
  unfold_state. subst drag. specialize (Hdrag d eq_refl).
  apply checkCollision_false_disjoint in Hfree.
  destruct d as [piece [] spos spiece]; unfold dropPlace; unfold_state;
    rewrite updateOccupiedSegments_add.
  - (* from the inventory *)
    subst occ. pose proof (Hinv _ Hdrag) as Hfresh.
    split; [| split; [| split; [| split]]].
    + rewrite map_app. apply NoDup_app. split; [done |]. split.
      * intros i Hi Hi'. apply list_elem_of_singleton in Hi'. by subst i.
      * apply NoDup_singleton.
    + intros a b Ha Hb Hid.
      apply elem_of_app in Ha as [Ha | Ha]; apply elem_of_app in Hb as [Hb | Hb];
        try (apply list_elem_of_singleton in Ha as ->);
        try (apply list_elem_of_singleton in Hb as ->).
      * by apply Hdisj.
      * pose proof (placedFootprint_subseteq _ _ Ha).
        change (placedFootprint (mkPlaced piece position))
          with (footprint piece position). set_solver.
      * pose proof (placedFootprint_subseteq _ _ Hb).
        change (placedFootprint (mkPlaced piece position))
          with (footprint piece position). set_solver.
      * done.
    + intros i Hi Hplaced. rewrite map_is_fmap in Hi.
      apply list_elem_of_fmap in Hi as (p & -> & Hp).
      apply list_elem_of_filter in Hp as [Hne Hp].
      rewrite map_app in Hplaced. apply elem_of_app in Hplaced as [Hq | Hq].
      * apply (Hinv (piece_id p)); [| done]. rewrite map_is_fmap.
        by apply list_elem_of_fmap_2.
      * apply list_elem_of_singleton in Hq. by apply Hne.
    + by rewrite placedUnion_app.
    + intros d Hd. discriminate Hd.
  - (* from the board *)
    destruct Hocc as (sp & pos & -> & -> & Hin & ->).
    destruct Hdrag as (sp' & [= <-] & Hid).
    pose proof (placedId_elem_of _ _ Hin) as Hidin.
    change (placedId (mkPlaced sp pos)) with (piece_id sp) in Hidin.
    rewrite <- Hid in Hidin.
    change (footprint sp pos) with (placedFootprint (mkPlaced sp pos)) in *.
    rewrite (placedUnion_without _ _ Hnd Hdisj Hin) in *.
    change (placedId (mkPlaced sp pos)) with (piece_id sp) in *.
    rewrite <- Hid in *. unfold_state.
    split; [| split; [| split; [| split]]].
    + by rewrite replacePlaced_ids.
    + intros a b Ha Hb Hne.
      apply elem_of_replacePlaced in Ha as [[-> _] | [Ha Hida]];
        apply elem_of_replacePlaced in Hb as [[-> _] | [Hb Hidb]].
      * done.
      * assert (placedFootprint b ⊆ placedUnion
                  (filter (λ q, placedId q ≠ piece_id piece) placed)) as Hsub.
        { apply placedFootprint_subseteq. by apply list_elem_of_filter. }
        change (placedFootprint (mkPlaced piece position))
          with (footprint piece position). set_solver.
      * assert (placedFootprint a ⊆ placedUnion
                  (filter (λ q, placedId q ≠ piece_id piece) placed)) as Hsub.
        { apply placedFootprint_subseteq. by apply list_elem_of_filter. }
        change (placedFootprint (mkPlaced piece position))
          with (footprint piece position). set_solver.
      * by apply Hdisj.
    + by rewrite replacePlaced_ids.
    + by rewrite placedUnion_replacePlaced.
    + intros d Hd. discriminate Hd.
Qed.

Lemma consistent_rotate s pieceId direction :
  consistent s → consistent (gameReducer s (ROTATE_PIECE pieceId direction)).
Proof.
  destruct s as [[placed occ] inv drag].
  intros (Hnd & Hdisj & Hinv & Hocc & Hdrag).
  assert (∃ inv' drag',
            gameReducer (mkState (mkBoard placed occ) inv drag)
                        (ROTATE_PIECE pieceId direction)
            = mkState (mkBoard placed occ) inv' drag'
            ∧ map piece_id inv' = map piece_id inv
            ∧ (drag' = drag
               ∨ ∃ d, drag = Some d
                      ∧ drag' = Some (mkDrag (rotatePiece (drag_piece d) direction)
                                        (sourceType d) (sourcePosition d)
                                        (sourcePiece d))))
    as (inv' & drag' & -> & Hids & Hdrag').
  { cbn [gameReducer inventory dragState board].
    destruct (list_find (hasId pieceId) inv) as [[i piece] |] eqn:Hfind.
    - apply list_find_Some in Hfind as (Hi & _ & _).
      eexists _, _. split; [reflexivity |].
      split; [by apply rotate_in_inventory_ids |].
      destruct drag as [d |]; [| by left].
      destruct (bool_decide _); [right; eauto | by left].
    - destruct drag as [d |].
      + destruct (bool_decide _); eexists _, _; (split; [reflexivity |]);
          (split; [done |]); [right; eauto | by left].
      + eexists _, _. split; [reflexivity |]. split; [done | by left]. }
  unfold_state. rewrite Hids.
  destruct Hdrag' as [-> | (d & -> & ->)]; [done |].
  cbn [sourceType sourcePiece sourcePosition drag_piece].
  do 3 (split; [done |]). split; [done |].
  intros d' [= <-]. cbn [sourceType sourcePiece sourcePosition drag_piece].
  rewrite rotatePiece_id. by apply Hdrag.
Qed.

Lemma consistent_return s piece :
  consistent s → allowed s (RETURN_TO_INVENTORY piece) →
  consistent (gameReducer s (RETURN_TO_INVENTORY piece)).
Proof.
  destruct s as [[placed occ] inv drag].
  intros (Hnd & Hdisj & Hinv & Hocc & Hdrag) Hallowed.
  cbn [allowed dragState] in Hallowed. unfold_state.
  assert (∀ pp, pp ∈ placed → placedId pp = piece_id piece →
                occ ∖ placedFootprint pp
                = placedUnion (filter (λ q, placedId q ≠ piece_id piece) placed))
    as Hfreed.
  { intros pp Hpp Hpid. rewrite <- Hpid.
    rewrite <- (placedUnion_without _ _ Hnd Hdisj Hpp).
    destruct drag as [[dp [] spos spiece] |]; unfold_state.
    - by subst occ.
    - destruct Hocc as (sp & pos & -> & -> & Hin & ->).
      destruct (Hdrag _ eq_refl) as (sp' & [= <-] & Hid).
      cbn [drag_piece] in *.
      assert (pp = mkPlaced sp pos) as ->.
      { apply (placedId_inj placed); try done.
        rewrite Hpid, Hallowed, Hid. reflexivity. }
      change (placedFootprint (mkPlaced sp pos)) with (footprint sp pos).
      set_solver.
    - by subst occ. }
  assert (piece_id piece ∉ map placedId placed →
          occ = placedUnion placed) as Hkept.
  { intros Habsent.
    destruct drag as [[dp [] spos spiece] |]; unfold_state; try done.
    destruct Hocc as (sp & pos & -> & -> & Hin & ->).
    destruct (Hdrag _ eq_refl) as (sp' & [= <-] & Hid).
    cbn [drag_piece] in *. exfalso. apply Habsent.
    rewrite Hallowed, Hid. by apply (placedId_elem_of placed (mkPlaced sp pos)). }
  assert (consistent
            (mkState
               (mkBoard
                  (filter (λ p, piece_id (placed_piece p) ≠ piece_id piece) placed)
                  match list_find (placedHasId (piece_id piece)) placed with
                  | Some (_, pp) =>
                      updateOccupiedSegments occ (placed_piece pp)
                        (placed_position pp) op_remove
                  | None => occ
                  end)
               (if bool_decide (Exists (hasId (piece_id piece)) inv)
                then inv else inv ++ [piece])
               None)) as Hmain.
  { unfold_state. split; [by apply NoDup_placedId_filter |].
    split; [by apply disjointFootprints_filter |]. split; [| split].
    - intros i Hi Hplaced. rewrite map_is_fmap in Hplaced.
      apply list_elem_of_fmap in Hplaced as (q & -> & Hq).
      apply list_elem_of_filter in Hq as [Hne Hq].
      assert (placedId q ∈ map piece_id inv) as Hold.
      { destruct (bool_decide _); [done |].
        rewrite map_app in Hi. apply elem_of_app in Hi as [Hi | Hi]; [done |].
        apply list_elem_of_singleton in Hi. by destruct Hne. }
      apply (Hinv _ Hold). by apply placedId_elem_of.
    - destruct (list_find _ placed) as [[k pp] |] eqn:Hfind.
      + apply list_find_Some in Hfind as (Hk & Hpid & _).
        rewrite updateOccupiedSegments_remove.
        apply (Hfreed pp); [| done]. apply list_elem_of_lookup. eauto.
      + assert (piece_id piece ∉ map placedId placed) as Habsent.
        { intros Hin. rewrite map_is_fmap in Hin.
          apply list_elem_of_fmap in Hin as (q & Hid & Hq).
          apply list_find_None in Hfind.
          rewrite Forall_forall in Hfind. by apply (Hfind q). }
        etrans; [by apply Hkept |]. f_equal. symmetry.
        by apply filter_absent_id.
    - intros d Hd. discriminate Hd. }
  destruct drag as [[dp [] spos spiece] |]; cbn [gameReducer dragState board
    placedPieces occupiedSegments inventory]; try exact Hmain.
  unfold_state. by repeat split.
Qed.

Lemma consistent_step s a :
  consistent s → allowed s a → consistent (gameReducer s a).
Proof.
  intros Hs Ha. destruct a as [piece source position | position | | pieceId
    direction | piece | | payload].
  - by apply consistent_pick_up.
  - cbn [gameReducer]. destruct (dragState s) as [d |] eqn:Hd; [| done].
    destruct (returnToSource_consistent s d Hs Hd) as (s' & -> & Hs' & _).
    destruct (checkCollision _ _ _) eqn:Hcol; [done |].
    by apply dropPlace_consistent.
  - cbn [gameReducer]. destruct (dragState s) as [d |] eqn:Hd; [| done].
    by destruct (returnToSource_consistent s d Hs Hd) as (s' & -> & Hs' & _).
  - by apply consistent_rotate.
  - by apply consistent_return.
  - apply consistent_initial.
  - exact Ha.
Qed.

Lemma reachable_consistent s : reachable s → consistent s.
Proof.
  induction 1 as [| s a _ IH Ha]; [apply consistent_initial |].
  by apply consistent_step.
Qed.

(** ** Occupancy and ownership over reachable states *)

(** Closed decidable facts are settled by evaluation. *)
Ltac by_compute := apply (bool_decide_unpack _); vm_compute; exact I.

Lemma reachable_afterPlacingOne : reachable afterPlacingOne.
Proof.
  unfold afterPlacingOne, runActions. cbn [fold_left].
  apply reachable_step; [apply reachable_step; [apply reachable_initial |] |].
  - split; [reflexivity |]. by_compute.
  - exact I.
Qed.

Lemma reachable_draggingFromBoard : reachable draggingFromBoard.
Proof.
  unfold draggingFromBoard, runActions. cbn [fold_left].
  apply reachable_step; [apply reachable_afterPlacingOne |].
  exists (mkPos 2 1). split; [reflexivity |]. split; [| by left].
  by_compute.
Qed.

Lemma reachable_draggingZeroWithOnePlaced : reachable draggingZeroWithOnePlaced.
Proof.
  unfold draggingZeroWithOnePlaced, runActions. cbn [fold_left].
  apply reachable_step; [apply reachable_afterPlacingOne |].
  split; [reflexivity |]. by_compute.
Qed.

(** C1 as stated fails: piece-1 is placed at (2,1) and piece-7 at (0,0);
    piece-1 is lifted from the board, which frees its segments; returning
    piece-7 to the inventory then clears the drag state without restoring
    them, so piece-1 is left placed with none of its segments occupied. *)
Lemma occupancy_drifts_without_guards :
  ¬ (∀ actions : list GameAction,
        let s := runActions getInitialState actions in
        dragState s = None →
        occupiedSegments (board s) = placedUnion (placedPieces (board s))).
Proof.
  intros Hall.
  specialize (Hall [PICK_UP_PIECE (initialPiece D1) inventory_source None;
                    DROP_PIECE (mkPos 2 1);
                    PICK_UP_PIECE (initialPiece D7) inventory_source None;
                    DROP_PIECE (mkPos 0 0);
                    PICK_UP_PIECE (initialPiece D1) board_source
                                  (Some (mkPos 2 1));
                    RETURN_TO_INVENTORY (initialPiece D7)] eq_refl).
  apply (f_equal (λ X : gset string, bool_decide ("3,1,v" ∈ X))) in Hall.
  vm_compute in Hall. discriminate Hall.
Qed.

(** C1 (amended): in every state reached through actions the calling layer
    may dispatch, with no drag in progress the occupied set is exactly the
    union of the placed pieces' identities; during a drag from the inventory
    it is too, and during a drag from the board it is that union minus the
    identities of the lifted piece at its source position. *)
Theorem reachable_occupancy (s : GameState) :
  reachable s →
  (dragState s = None →
   occupiedSegments (board s) = placedUnion (placedPieces (board s)))
  ∧ occupancyMatches s.
Proof.
  intros Hs. apply reachable_consistent in Hs as (_ & _ & _ & Hocc & _).
  split; [| done]. intros Hnone. unfold occupancyMatches in Hocc.
  by rewrite Hnone in Hocc.
Qed.

Lemma reachable_occupancy_witness :
  reachable afterPlacingOne
  ∧ (dragState afterPlacingOne = None →
     occupiedSegments (board afterPlacingOne)
     = placedUnion (placedPieces (board afterPlacingOne)))
  ∧ occupancyMatches afterPlacingOne.
Proof.
  split; [exact reachable_afterPlacingOne |].
  exact (reachable_occupancy afterPlacingOne reachable_afterPlacingOne).
Defined.

(** C2 as stated fails: a pickup from the inventory leaves the piece listed
    in the inventory while it is the dragged piece. *)
Lemma lifted_piece_stays_in_inventory :
  allowed getInitialState
          (PICK_UP_PIECE (initialPiece D1) inventory_source None)
  ∧ ¬ singleOwner
        (gameReducer getInitialState
           (PICK_UP_PIECE (initialPiece D1) inventory_source None)).
Proof.
  split.
  - split; [reflexivity |]. by_compute.
  - intros [Hdrag _]. destruct (Hdrag _ eq_refl) as [Hnot _].
    apply Hnot. by_compute.
Qed.

(** C2 (amended): in every state reached through actions the calling layer
    may dispatch, no id is both in the inventory and among the placed pieces,
    and the dragged piece's id is listed at its source and only there: in the
    inventory for a drag from the inventory, among the placed pieces for a
    drag from the board. *)
Theorem reachable_ownedAtSource (s : GameState) :
  reachable s → ownedAtSource s.
Proof.
  intros Hs.
  apply reachable_consistent in Hs as (_ & _ & Hinv & Hocc & Hdrag).
  split; [done |]. intros d Hd. specialize (Hdrag d Hd).
  unfold occupancyMatches in Hocc. rewrite Hd in Hocc.
  destruct (sourceType d).
  - split; [done | by apply Hinv].
  - destruct Hocc as (sp & pos & Hsp & _ & Hin & _).
    destruct Hdrag as (sp' & Hsp' & Hid).
    assert (sp' = sp) as -> by congruence.
    assert (piece_id (drag_piece d) ∈ placedIds s) as Hplaced.
    { rewrite Hid. by apply (placedId_elem_of _ (mkPlaced sp pos)). }
    split; [done |]. intros Hi. by apply (Hinv _ Hi).
Qed.

Lemma reachable_ownedAtSource_witness :
  reachable draggingFromBoard ∧ ownedAtSource draggingFromBoard.
Proof.
  split; [exact reachable_draggingFromBoard |].
  exact (reachable_ownedAtSource draggingFromBoard reachable_draggingFromBoard).
Defined.

(** ** Rejected drops *)

(** C7 as stated fails for a drag from the board: the rejected drop puts the
    lifted piece's identities back, so the occupied set differs from its
    value just before the drop. The same happens when the pickup named a
    position where the piece was not placed: the identities are added
    although nothing was removed. *)
Lemma rejected_drop_changes_occupancy :
  (reachable draggingFromBoard
   ∧ (∃ d, dragState draggingFromBoard = Some d
           ∧ checkCollision (drag_piece d) (mkPos 5 1)
               (occupiedSegments (board draggingFromBoard)) = true)
   ∧ occupiedSegments
       (board (gameReducer draggingFromBoard (DROP_PIECE (mkPos 5 1))))
     ≠ occupiedSegments (board draggingFromBoard))
  ∧ (let s := gameReducer getInitialState
                (PICK_UP_PIECE (initialPiece D1) board_source
                               (Some (mkPos 2 1))) in
     occupiedSegments (board s) = occupiedSegments (board getInitialState)
     ∧ checkCollision (initialPiece D1) (mkPos 5 1)
         (occupiedSegments (board s)) = true
     ∧ occupiedSegments (board (gameReducer s (DROP_PIECE (mkPos 5 1))))
       ≠ occupiedSegments (board s)).
Proof.
  split; [split; [exact reachable_draggingFromBoard | split] | repeat split].
  - eexists. split; reflexivity.
  - intros Heq.
    apply (f_equal (λ X : gset string, bool_decide ("3,1,v" ∈ X))) in Heq.
    vm_compute in Heq. discriminate Heq.
  - intros Heq.
    apply (f_equal (λ X : gset string, bool_decide ("3,1,v" ∈ X))) in Heq.
    vm_compute in Heq. discriminate Heq.
Qed.

(** C7 (amended): in a state reached through actions the calling layer may
    dispatch, a drop that collides clears the drag state and leaves the
    placed pieces and the inventory as they were; the occupied set ends up
    equal to the union of the placed pieces' identities. For a drag from the
    inventory that is its value before the drop and the piece is still in the
    inventory; for a drag from the board it is the value before the drop
    plus the identities of the snapshot piece at its source position, where
    the piece is still placed. *)
Theorem rejected_drop_returns_to_source (s : GameState) (d : DragState)
    (position : BoardPosition) :
  reachable s →
  dragState s = Some d →
  checkCollision (drag_piece d) position (occupiedSegments (board s)) = true →
  let s' := gameReducer s (DROP_PIECE position) in
  dragState s' = None
  ∧ placedPieces (board s') = placedPieces (board s)
  ∧ inventory s' = inventory s
  ∧ occupiedSegments (board s') = placedUnion (placedPieces (board s))
  ∧ match sourceType d with
    | inventory_source =>
        occupiedSegments (board s') = occupiedSegments (board s)
        ∧ piece_id (drag_piece d) ∈ inventoryIds s'
    | board_source =>
        ∃ sp pos, sourcePiece d = Some sp ∧ sourcePosition d = Some pos
                  ∧ mkPlaced sp pos ∈ placedPieces (board s')
                  ∧ occupiedSegments (board s')
                    = occupiedSegments (board s) ∪ footprint sp pos
    end.
Proof.
  intros Hs Hd Hcol. apply reachable_consistent in Hs.
  cbn zeta. cbn [gameReducer]. rewrite Hd, Hcol.
  destruct (returnToSource_consistent s d Hs Hd)
    as (s' & Hret & Hs' & Hnone & Hplaced & Hinv).
  rewrite Hret. do 3 (split; [done |]).
  destruct Hs' as (_ & _ & _ & Hocc' & _).
  unfold occupancyMatches in Hocc'. rewrite Hnone, Hplaced in Hocc'.
  split; [done |].
  destruct Hs as (_ & _ & _ & Hocc & Hdrag). specialize (Hdrag d Hd).
  unfold occupancyMatches in Hocc. rewrite Hd in Hocc.
  unfold returnToSource in Hret.
  destruct (sourceType d).
  - injection Hret as <-. split; [done |]. by unfold inventoryIds.
  - destruct Hocc as (sp & pos & Hsp & Hpos & Hin & Hocc).
    rewrite Hpos, Hsp in Hret. injection Hret as <-.
    exists sp, pos. do 2 (split; [done |]). split; [done |].
    cbn [withOccupied board occupiedSegments default].
    by rewrite updateOccupiedSegments_add.
Qed.

Lemma rejected_drop_returns_to_source_witness :
  reachable draggingFromBoard
  ∧ dragState draggingFromBoard
    = Some (mkDrag (initialPiece D1) board_source (Some (mkPos 2 1))
                   (Some (initialPiece D1)))
  ∧ checkCollision (initialPiece D1) (mkPos 5 1)
      (occupiedSegments (board draggingFromBoard)) = true
  ∧ occupiedSegments
      (board (gameReducer draggingFromBoard (DROP_PIECE (mkPos 5 1))))
    = placedUnion (placedPieces (board draggingFromBoard)).
Proof.
  split; [exact reachable_draggingFromBoard |].
  split; [reflexivity |]. split; [reflexivity |].
  apply (rejected_drop_returns_to_source draggingFromBoard
           (mkDrag (initialPiece D1) board_source (Some (mkPos 2 1))
                   (Some (initialPiece D1)))
           (mkPos 5 1) reachable_draggingFromBoard eq_refl eq_refl).
Defined.

(** ** Return to the inventory *)

Lemma return_during_inventory_drag s d piece :
  dragState s = Some d → sourceType d = inventory_source →
  gameReducer s (RETURN_TO_INVENTORY piece) = gameReducer s CANCEL_DRAG.
Proof.
  intros Hd Hsource. cbn [gameReducer]. rewrite Hd.
  destruct d as [dp source spos spiece]. cbn [sourceType] in Hsource.
  subst source. reflexivity.
Qed.

Lemma return_placed_piece s piece :
  match dragState s with
  | Some d => sourceType d = board_source
  | None => True
  end →
  let s' := gameReducer s (RETURN_TO_INVENTORY piece) in
  placedPieces (board s')
  = filter (λ p, piece_id (placed_piece p) ≠ piece_id piece)
           (placedPieces (board s))
  ∧ occupiedSegments (board s')
    = match list_find (placedHasId (piece_id piece)) (placedPieces (board s)) with
      | Some (_, pp) => occupiedSegments (board s) ∖ placedFootprint pp
      | None => occupiedSegments (board s)
      end
  ∧ inventory s'
    = (if bool_decide (piece_id piece ∈ inventoryIds s) then inventory s
       else inventory s ++ [piece])
  ∧ dragState s' = None.
Proof.
  intros Hsource.
  assert (gameReducer s (RETURN_TO_INVENTORY piece)
          = mkState
              (mkBoard
                 (filter (λ p, piece_id (placed_piece p) ≠ piece_id piece)
                         (placedPieces (board s)))
                 match list_find (placedHasId (piece_id piece))
                                 (placedPieces (board s)) with
                 | Some (_, pp) =>
                     updateOccupiedSegments (occupiedSegments (board s))
                       (placed_piece pp) (placed_position pp) op_remove
                 | None => occupiedSegments (board s)
                 end)
              (if bool_decide (Exists (hasId (piece_id piece)) (inventory s))
               then inventory s else inventory s ++ [piece])
              None) as ->.
  { cbn [gameReducer]. destruct (dragState s) as [[dp [] spos spiece] |];
      [discriminate Hsource | reflexivity | reflexivity]. }
  cbn zeta. cbn [board placedPieces occupiedSegments inventory dragState].
  split; [done |]. split; [| split; [| done]].
  - destruct (list_find _ _) as [[k pp] |]; [| done].
    by rewrite updateOccupiedSegments_remove.
  - apply (f_equal (λ b : bool, if b then _ else _)), bool_decide_ext.
    rewrite Exists_exists. unfold inventoryIds, hasId.
    rewrite map_is_fmap, list_elem_of_fmap. naive_solver.
Qed.

(** C9, the reducer at the failing input: piece-0 is being dragged from the
    inventory and piece-1 is placed at (2,1); returning piece-1 to the
    inventory only cancels the drag, piece-1 stays placed and occupying. *)
Theorem return_of_other_piece_only_cancels :
  (∃ d, dragState draggingZeroWithOnePlaced = Some d
        ∧ sourceType d = inventory_source
        ∧ piece_id (drag_piece d) ≠ piece_id (initialPiece D1))
  ∧ mkPlaced (initialPiece D1) (mkPos 2 1)
    ∈ placedPieces (board draggingZeroWithOnePlaced)
  ∧ gameReducer draggingZeroWithOnePlaced
      (RETURN_TO_INVENTORY (initialPiece D1))
    = gameReducer draggingZeroWithOnePlaced CANCEL_DRAG
  ∧ placedPieces
      (board (gameReducer draggingZeroWithOnePlaced
                (RETURN_TO_INVENTORY (initialPiece D1))))
    = [mkPlaced (initialPiece D1) (mkPos 2 1)]
  ∧ occupiedSegments
      (board (gameReducer draggingZeroWithOnePlaced
                (RETURN_TO_INVENTORY (initialPiece D1))))
    = {[ "3,1,v"; "3,2,v" ]}
  ∧ initialPiece D1
    ∉ inventory (gameReducer draggingZeroWithOnePlaced
                   (RETURN_TO_INVENTORY (initialPiece D1))).
Proof.
  split; [| split; [| split; [| split; [| split]]]].
  - eexists. split; [reflexivity |]. split; [reflexivity | discriminate].
  - by_compute.
  - by apply (return_during_inventory_drag _
                (mkDrag (initialPiece D0) inventory_source None None)).
  - reflexivity.
  - reflexivity.
  - by_compute.
Qed.

(** ** Board pickup without a source position *)

(** C10 as stated fails: with piece-1 placed at (2,1), piece-7 is picked up
    as a board piece without a position and dropped at (2,1), where it
    collides; its identities are not added to the occupied set. *)
Lemma positionless_drop_adds_nothing :
  checkCollision (initialPiece D7) (mkPos 2 1)
    (occupiedSegments (board afterPlacingOne)) = true
  ∧ ¬ (footprint (initialPiece D7) (mkPos 2 1)
       ⊆ occupiedSegments
           (board (runActions afterPlacingOne
                     [PICK_UP_PIECE (initialPiece D7) board_source None;
                      DROP_PIECE (mkPos 2 1)]))).
Proof.
  split; [reflexivity |]. intros Hsub.
  assert ("2,1,h" ∈ footprint (initialPiece D7) (mkPos 2 1)) as Hin
    by by_compute.
  apply Hsub in Hin. revert Hin. by_compute.
Qed.

(** C10 (amended): a pickup with source board and no position records a drag
    state with source type board and neither source position nor snapshot; a
    following drop at a colliding position falls through the return branches
    and through both placement branches, so the state comes back with only
    the drag state cleared: occupied set, placed pieces and inventory are
    unchanged. *)
Theorem positionless_board_pickup_then_drop (s : GameState) (piece : Piece)
    (position : BoardPosition) :
  checkCollision piece position (occupiedSegments (board s)) = true →
  let s1 := gameReducer s (PICK_UP_PIECE piece board_source None) in
  let s2 := gameReducer s1 (DROP_PIECE position) in
  dragState s1 = Some (mkDrag piece board_source None None)
  ∧ occupiedSegments (board s2) = occupiedSegments (board s)
  ∧ placedPieces (board s2) = placedPieces (board s)
  ∧ inventory s2 = inventory s
  ∧ dragState s2 = None.
Proof.
  intros Hcol. destruct s as [[placed occ] inv drag].
  cbn [board occupiedSegments] in Hcol. cbn zeta.
  cbn [gameReducer withDrag dragState board occupiedSegments drag_piece].
  rewrite Hcol. by repeat split.
Qed.

Lemma positionless_board_pickup_then_drop_witness :
  checkCollision (initialPiece D7) (mkPos 2 1)
    (occupiedSegments (board afterPlacingOne)) = true
  ∧ occupiedSegments
      (board (gameReducer
                (gameReducer afterPlacingOne
                   (PICK_UP_PIECE (initialPiece D7) board_source None))
                (DROP_PIECE (mkPos 2 1))))
    = occupiedSegments (board afterPlacingOne).
Proof.
  split; [reflexivity |].
  apply (positionless_board_pickup_then_drop afterPlacingOne (initialPiece D7)
           (mkPos 2 1) eq_refl).
Defined.

(** * Further properties of the code *)

(** ** The board's segments *)

Lemma elem_of_getAllBoardSegments seg :
  seg ∈ getAllBoardSegments ↔ inRange seg.
Proof.
  unfold getAllBoardSegments, inRange.
  rewrite elem_of_app, !list_elem_of_In, !in_flat_map.
  setoid_rewrite <- list_elem_of_In. setoid_rewrite elem_of_seqZ.
  setoid_rewrite map_is_fmap. setoid_rewrite list_elem_of_fmap.
  setoid_rewrite elem_of_seqZ.
  destruct seg as [x y []]; cbn [seg_x seg_y seg_orientation]; split.
  - intros [(y' & Hy & x' & [= -> ->] & Hx) | (x' & Hx & y' & [=] & Hy)]. lia.
  - intros [Hx Hy]. left. exists y. split; [lia |]. exists x. split; [done | lia].
  - intros [(y' & Hy & x' & [=] & Hx) | (x' & Hx & y' & [= -> ->] & Hy)]. lia.
  - intros [Hx Hy]. right. exists x. split; [lia |]. exists y. split; [done | lia].
Qed.

(** X1: the board has exactly 49 segments, without repetition, and a segment
    is one of them exactly when it is in the valid range of its orientation. *)
Theorem getAllBoardSegments_spec :
  length getAllBoardSegments = 49%nat
  ∧ NoDup getAllBoardSegments
  ∧ ∀ seg, seg ∈ getAllBoardSegments ↔ inRange seg.
Proof.
  split; [reflexivity |]. split; [| apply elem_of_getAllBoardSegments].
  apply (bool_decide_unpack _). vm_compute. exact I.
Qed.

Lemma outOfBounds_false segment :
  outOfBounds segment = false ↔ segment ∈ getAllBoardSegments.
Proof.
  rewrite elem_of_getAllBoardSegments. unfold outOfBounds, inRange.
  destruct (seg_orientation segment);
    rewrite !orb_false_iff, ?Z.ltb_ge, ?Z.gtb_ltb, ?Z.geb_leb, ?Z.ltb_ge,
      ?Z.leb_gt; lia.
Qed.

(** ** Placement tests *)

(** X2: a placement is free of collision exactly when every absolute segment
    of the piece is one of the board's segments and its identity is not
    occupied. *)
Theorem checkCollision_false_iff (piece : Piece) (position : BoardPosition)
    (occupied : gset string) :
  checkCollision piece position occupied = false
  ↔ ∀ seg, seg ∈ getPieceSegmentPositions piece position →
           seg ∈ getAllBoardSegments ∧ segmentToId seg ∉ occupied.
Proof.
  unfold checkCollision.
  induction (getPieceSegmentPositions piece position) as [| seg rest IH];
    cbn [collisionLoop].
  - split; [| done]. intros _ seg Hin. inversion Hin.
  - destruct (decide (segmentToId seg ∈ occupied)) as [Hocc | Hfree].
    + split; [discriminate |]. intros Hall.
      destruct (Hall seg) as [_ Hn]; [left | done].
    + destruct (outOfBounds seg) eqn:Hout.
      * split; [discriminate |]. intros Hall.
        destruct (Hall seg) as [Hon _]; [left |].
        apply outOfBounds_false in Hon. congruence.
      * rewrite IH. apply outOfBounds_false in Hout. split.
        -- intros Hall s Hs. apply elem_of_cons in Hs as [-> | Hs]; auto.
        -- intros Hall s Hs. apply Hall. by right.
Qed.

Lemma validPlacementLoop_collisionLoop segments position occupied :
  validPlacementLoop segments position occupied
  = negb (collisionLoop
            (map (fun seg => mkSegment (pos_x position + seg_x seg)
                                       (pos_y position + seg_y seg)
                                       (seg_orientation seg)) segments)
            occupied).
Proof.
  induction segments as [| seg rest IH];
    cbn [validPlacementLoop collisionLoop map]; [done |].
  destruct (outOfBounds _), (decide (_ ∈ occupied)); done.
Qed.

(** X3: the board's placement preview and the reducer's collision check
    always agree: the preview accepts a placement exactly when the reducer
    finds no collision, although they test bounds and occupancy in opposite
    orders. *)
Theorem wouldBeValidPlacement_checkCollision (occupied : gset string)
    (piece : Piece) (position : BoardPosition) :
  wouldBeValidPlacement occupied piece position
  = negb (checkCollision piece position occupied).
Proof. apply validPlacementLoop_collisionLoop. Qed.

(** ** Updating the occupied set *)

(** X4: adding a piece's identities to a set that holds none of them and
    removing them again gives the set back. *)
Theorem updateOccupiedSegments_add_remove (occupied : gset string)
    (piece : Piece) (position : BoardPosition) :
  footprint piece position ## occupied →
  updateOccupiedSegments
    (updateOccupiedSegments occupied piece position op_add)
    piece position op_remove = occupied.
Proof.
  rewrite updateOccupiedSegments_add, updateOccupiedSegments_remove.
  set_solver.
Qed.

Lemma updateOccupiedSegments_add_remove_witness :
  footprint (initialPiece D7) (mkPos 0 0)
  ## occupiedSegments (board afterPlacingOne)
  ∧ updateOccupiedSegments
      (updateOccupiedSegments (occupiedSegments (board afterPlacingOne))
         (initialPiece D7) (mkPos 0 0) op_add)
      (initialPiece D7) (mkPos 0 0) op_remove
    = occupiedSegments (board afterPlacingOne).
Proof.
  assert (footprint (initialPiece D7) (mkPos 0 0)
          ## occupiedSegments (board afterPlacingOne)) as Hfree.
  { apply (bool_decide_unpack _). vm_compute. exact I. }
  split; [exact Hfree |].
  exact (updateOccupiedSegments_add_remove _ _ _ Hfree).
Defined.

(** X5: removing a piece's identities from a set that holds all of them and
    adding them again gives the set back. *)
Theorem updateOccupiedSegments_remove_add (occupied : gset string)
    (piece : Piece) (position : BoardPosition) :
  footprint piece position ⊆ occupied →
  updateOccupiedSegments
    (updateOccupiedSegments occupied piece position op_remove)
    piece position op_add = occupied.
Proof.
  rewrite updateOccupiedSegments_add, updateOccupiedSegments_remove.
  intros Hsub. apply set_eq. intros i.
  rewrite elem_of_union, elem_of_difference.
  destruct (decide (i ∈ footprint piece position)); set_solver.
Qed.

Lemma updateOccupiedSegments_remove_add_witness :
  footprint (initialPiece D1) (mkPos 2 1)
  ⊆ occupiedSegments (board afterPlacingOne)
  ∧ updateOccupiedSegments
      (updateOccupiedSegments (occupiedSegments (board afterPlacingOne))
         (initialPiece D1) (mkPos 2 1) op_remove)
      (initialPiece D1) (mkPos 2 1) op_add
    = occupiedSegments (board afterPlacingOne).
Proof.
  assert (footprint (initialPiece D1) (mkPos 2 1)
          ⊆ occupiedSegments (board afterPlacingOne)) as Hsub.
  { apply (bool_decide_unpack _). vm_compute. exact I. }
  split; [exact Hsub |].
  exact (updateOccupiedSegments_remove_add _ _ _ Hsub).
Defined.

(** ** Bounding boxes and normalization *)

Lemma getBoundingBox_fold segments bb :
  let bb' := fold_left bboxStep segments bb in
  minX bb' = fold_left optMin (map seg_x segments) (minX bb)
  ∧ minY bb' = fold_left optMin (map seg_y segments) (minY bb)
  ∧ maxX bb' = fold_left optMax (map segmentEndX segments) (maxX bb)
  ∧ maxY bb' = fold_left optMax (map segmentEndY segments) (maxY bb).
Proof.
  revert bb. induction segments as [| seg rest IH]; intros bb; [done |].
  cbn [fold_left map]. cbn zeta in IH.
  destruct (IH (bboxStep bb seg)) as (-> & -> & -> & ->).
  unfold bboxStep, segmentEndX, segmentEndY.
  by destruct (seg_orientation seg).
Qed.

Lemma fold_optMin_spec l a m :
  fold_left optMin l a = Some m →
  (∀ x, x ∈ l → m ≤ x) ∧ (∀ a', a = Some a' → m ≤ a')
  ∧ (m ∈ l ∨ a = Some m).
Proof.
  revert a. induction l as [| x l IH]; intros a; cbn [fold_left].
  - intros ->. split; [intros x Hx; inversion Hx |].
    split; [intros a' [= ->]; lia | by right].
  - intros Hfold. apply IH in Hfold as (Hl & Ha & Hin).
    assert (m ≤ x ∧ ∀ a', a = Some a' → m ≤ a') as [Hx Ha'].
    { destruct a as [a0 |]; cbn [optMin] in *.
      - specialize (Ha _ eq_refl). split; [lia |]. intros a' [= <-]. lia.
      - specialize (Ha _ eq_refl). split; [lia | done]. }
    split; [| split; [done |]].
    + intros y Hy. apply elem_of_cons in Hy as [-> | Hy]; auto.
    + destruct Hin as [Hin | Hin]; [left; by right |].
      destruct a as [a0 |]; cbn [optMin] in Hin; injection Hin as Hin.
      * destruct (Z.min_spec a0 x) as [[_ Hm] | [_ Hm]]; rewrite Hm in Hin.
        -- right. by subst.
        -- left. subst. left.
      * left. subst. left.
Qed.

Lemma fold_optMax_spec l a m :
  fold_left optMax l a = Some m →
  (∀ x, x ∈ l → x ≤ m) ∧ (∀ a', a = Some a' → a' ≤ m)
  ∧ (m ∈ l ∨ a = Some m).
Proof.
  revert a. induction l as [| x l IH]; intros a; cbn [fold_left].
  - intros ->. split; [intros x Hx; inversion Hx |].
    split; [intros a' [= ->]; lia | by right].
  - intros Hfold. apply IH in Hfold as (Hl & Ha & Hin).
    assert (x ≤ m ∧ ∀ a', a = Some a' → a' ≤ m) as [Hx Ha'].
    { destruct a as [a0 |]; cbn [optMax] in *.
      - specialize (Ha _ eq_refl). split; [lia |]. intros a' [= <-]. lia.
      - specialize (Ha _ eq_refl). split; [lia | done]. }
    split; [| split; [done |]].
    + intros y Hy. apply elem_of_cons in Hy as [-> | Hy]; auto.
    + destruct Hin as [Hin | Hin]; [left; by right |].
      destruct a as [a0 |]; cbn [optMax] in Hin; injection Hin as Hin.
      * destruct (Z.max_spec a0 x) as [[_ Hm] | [_ Hm]]; rewrite Hm in Hin.
        -- left. subst. left.
        -- right. by subst.
      * left. subst. left.
Qed.

Lemma fold_optMin_is_Some l a :
  l ≠ [] ∨ is_Some a → is_Some (fold_left optMin l a).
Proof.
  revert a. induction l as [| x l IH]; intros a; cbn [fold_left].
  - intros [? | ?]; done.
  - intros _. apply IH. right. destruct a; cbn; eauto.
Qed.

Lemma fold_optMax_is_Some l a :
  l ≠ [] ∨ is_Some a → is_Some (fold_left optMax l a).
Proof.
  revert a. induction l as [| x l IH]; intros a; cbn [fold_left].
  - intros [? | ?]; done.
  - intros _. apply IH. right. destruct a; cbn; eauto.
Qed.

(** X6: the bounding box of a non-empty segment list has four finite
    bounds, and every segment of the list lies inside them, its far end
    counted by orientation; each minimum is the anchor coordinate of some
    segment of the list. *)
Theorem getBoundingBox_encloses (segments : list Segment) :
  segments ≠ [] →
  ∃ x0 y0 x1 y1,
    getBoundingBox segments = mkBBox (Some x0) (Some y0) (Some x1) (Some y1)
    ∧ (∀ seg, seg ∈ segments →
              x0 ≤ seg_x seg ∧ y0 ≤ seg_y seg
              ∧ segmentEndX seg ≤ x1 ∧ segmentEndY seg ≤ y1)
    ∧ (∃ seg, seg ∈ segments ∧ seg_x seg = x0)
    ∧ (∃ seg, seg ∈ segments ∧ seg_y seg = y0).
Proof.
  intros Hne. unfold getBoundingBox.
  pose proof (getBoundingBox_fold segments (mkBBox None None None None))
    as (Hx0 & Hy0 & Hx1 & Hy1). cbn zeta in *. cbn [minX minY maxX maxY] in *.
  assert (∀ f : Segment → Z, map f segments ≠ []) as Hmap.
  { intros f. by destruct segments. }
  destruct (fold_optMin_is_Some (map seg_x segments) None) as [x0 Ex0]; [auto |].
  destruct (fold_optMin_is_Some (map seg_y segments) None) as [y0 Ey0]; [auto |].
  destruct (fold_optMax_is_Some (map segmentEndX segments) None) as [x1 Ex1];
    [auto |].
  destruct (fold_optMax_is_Some (map segmentEndY segments) None) as [y1 Ey1];
    [auto |].
  exists x0, y0, x1, y1.
  destruct (fold_left bboxStep segments _) as [a b c d].
  cbn [minX minY maxX maxY] in *. split; [congruence |].
  apply fold_optMin_spec in Ex0 as (Hx0' & _ & Hx0in).
  apply fold_optMin_spec in Ey0 as (Hy0' & _ & Hy0in).
  apply fold_optMax_spec in Ex1 as (Hx1' & _ & _).
  apply fold_optMax_spec in Ey1 as (Hy1' & _ & _).
  split; [| split].
  - intros seg Hseg. rewrite !map_is_fmap in *.
    repeat split; [apply Hx0' | apply Hy0' | apply Hx1' | apply Hy1'];
      by apply list_elem_of_fmap_2.
  - destruct Hx0in as [Hin | [=]]. rewrite map_is_fmap in Hin.
    apply list_elem_of_fmap in Hin as (seg & -> & Hseg). eauto.
  - destruct Hy0in as [Hin | [=]]. rewrite map_is_fmap in Hin.
    apply list_elem_of_fmap in Hin as (seg & -> & Hseg). eauto.
Qed.

Lemma getBoundingBox_encloses_witness :
  SEGMENT_PATTERNS D1 ≠ []
  ∧ ∃ x0 y0 x1 y1,
      getBoundingBox (SEGMENT_PATTERNS D1)
      = mkBBox (Some x0) (Some y0) (Some x1) (Some y1)
      ∧ (∀ seg, seg ∈ SEGMENT_PATTERNS D1 →
                x0 ≤ seg_x seg ∧ y0 ≤ seg_y seg
                ∧ segmentEndX seg ≤ x1 ∧ segmentEndY seg ≤ y1)
      ∧ (∃ seg, seg ∈ SEGMENT_PATTERNS D1 ∧ seg_x seg = x0)
      ∧ (∃ seg, seg ∈ SEGMENT_PATTERNS D1 ∧ seg_y seg = y0).
Proof.
  assert (SEGMENT_PATTERNS D1 ≠ []) as Hne by discriminate.
  split; [exact Hne |].
  exact (getBoundingBox_encloses (SEGMENT_PATTERNS D1) Hne).
Defined.

Lemma minAnchorX_fold segments :
  minAnchorX segments = fold_left optMin (map seg_x segments) None.
Proof.
  unfold minAnchorX, getBoundingBox.
  by destruct (getBoundingBox_fold segments (mkBBox None None None None))
    as (-> & _).
Qed.

Lemma minAnchorY_fold segments :
  minAnchorY segments = fold_left optMin (map seg_y segments) None.
Proof.
  unfold minAnchorY, getBoundingBox.
  by destruct (getBoundingBox_fold segments (mkBBox None None None None))
    as (_ & -> & _).
Qed.

Lemma fold_optMin_shift (d : Z) l a :
  fold_left optMin (map (λ x, x + d) l) ((λ m, m + d) <$> a)
  = (λ m, m + d) <$> fold_left optMin l a.
Proof.
  revert a. induction l as [| x l IH]; intros a; cbn [fold_left map]; [done |].
  rewrite <- IH. f_equal. destruct a as [a0 |]; cbn; [| done].
  by rewrite Z.add_min_distr_r.
Qed.

Lemma minAnchor_translate dx dy segments :
  minAnchorX (map (translateSegment dx dy) segments)
  = (λ m, m + dx) <$> minAnchorX segments
  ∧ minAnchorY (map (translateSegment dx dy) segments)
    = (λ m, m + dy) <$> minAnchorY segments.
Proof.
  rewrite !minAnchorX_fold, !minAnchorY_fold, !map_map.
  cbn [translateSegment seg_x seg_y].
  rewrite <- (map_map seg_x (λ x, x + dx)), <- (map_map seg_y (λ y, y + dy)).
  split.
  - apply (fold_optMin_shift dx _ None).
  - apply (fold_optMin_shift dy _ None).
Qed.

Lemma minAnchor_is_Some segments :
  segments ≠ [] →
  ∃ mx my, minAnchorX segments = Some mx ∧ minAnchorY segments = Some my.
Proof.
  intros Hne. rewrite minAnchorX_fold, minAnchorY_fold.
  assert (∀ f : Segment → Z, map f segments ≠ []) as Hmap.
  { intros f. by destruct segments. }
  destruct (fold_optMin_is_Some (map seg_x segments) None) as [mx ->]; [auto |].
  destruct (fold_optMin_is_Some (map seg_y segments) None) as [my ->]; [auto |].
  eauto.
Qed.

Lemma normalizeSegments_translate segments mx my :
  minAnchorX segments = Some mx → minAnchorY segments = Some my →
  normalizeSegments segments = map (translateSegment (- mx) (- my)) segments.
Proof.
  unfold minAnchorX, minAnchorY, normalizeSegments. intros -> ->.
  apply map_ext. intros seg. unfold translateSegment. f_equal; lia.
Qed.

Lemma normalizeSegments_nil : normalizeSegments [] = [].
Proof. reflexivity. Qed.

Lemma translateSegment_compose dx dy ex ey segments :
  map (translateSegment ex ey) (map (translateSegment dx dy) segments)
  = map (translateSegment (dx + ex) (dy + ey)) segments.
Proof.
  rewrite map_map. apply map_ext. intros seg.
  unfold translateSegment; cbn. f_equal; lia.
Qed.

Lemma normalizeSegments_of_translate dx dy segments :
  normalizeSegments (map (translateSegment dx dy) segments)
  = normalizeSegments segments.
Proof.
  destruct segments as [| s0 rest]; [done |].
  destruct (minAnchor_is_Some (s0 :: rest)) as (mx & my & Hx & Hy); [done |].
  destruct (minAnchor_translate dx dy (s0 :: rest)) as [Hx' Hy'].
  rewrite Hx in Hx'. rewrite Hy in Hy'. cbn [fmap option_fmap option_map] in *.
  rewrite (normalizeSegments_translate _ _ _ Hx' Hy').
  rewrite (normalizeSegments_translate _ _ _ Hx Hy).
  rewrite translateSegment_compose. apply map_ext. intros seg.
  unfold translateSegment. f_equal; lia.
Qed.

Lemma normalizeSegments_min_zero segments :
  segments ≠ [] →
  minAnchorX (normalizeSegments segments) = Some 0
  ∧ minAnchorY (normalizeSegments segments) = Some 0.
Proof.
  intros Hne. destruct (minAnchor_is_Some segments Hne) as (mx & my & Hx & Hy).
  rewrite (normalizeSegments_translate _ _ _ Hx Hy).
  destruct (minAnchor_translate (- mx) (- my) segments) as [-> ->].
  rewrite Hx, Hy. cbn. split; f_equal; lia.
Qed.

Lemma rotate_iter_length n segments :
  length (Nat.iter n (map rotateSegment90Clockwise) segments) = length segments.
Proof.
  induction n as [| n IH]; [done |].
  by rewrite Nat.iter_succ, length_map.
Qed.

Lemma normalizeSegments_length segments :
  length (normalizeSegments segments) = length segments.
Proof.
  unfold normalizeSegments.
  destruct (minX (getBoundingBox segments)), (minY (getBoundingBox segments));
    by rewrite ?length_map.
Qed.

(** ** Rotating segment lists *)

(** X7: whatever the rotation argument, the rotated list has as many
    segments as the list given. *)
Theorem rotateSegments_length (segments : list Segment) (rotation : Rotation) :
  length (rotateSegments segments rotation) = length segments.
Proof.
  unfold rotateSegments. case_decide; [done |].
  by rewrite normalizeSegments_length, rotate_iter_length.
Qed.

(** X8: for any non-empty list and any rotation other than 0, the rotated
    list is normalized: its smallest x anchor and its smallest y anchor are
    both 0. *)
Theorem rotateSegments_min_zero (segments : list Segment) (rotation : Rotation) :
  segments ≠ [] → rotation ≠ 0 →
  minAnchorX (rotateSegments segments rotation) = Some 0
  ∧ minAnchorY (rotateSegments segments rotation) = Some 0.
Proof.
  intros Hne Hr. unfold rotateSegments. case_decide; [done |].
  apply normalizeSegments_min_zero.
  intros Hnil. apply Hne. apply (f_equal length) in Hnil.
  rewrite rotate_iter_length in Hnil. by destruct segments.
Qed.

Lemma rotateSegments_min_zero_witness :
  [mkSegment 4 (-2) vertical; mkSegment 7 5 horizontal] ≠ []
  ∧ (270 : Z) ≠ 0
  ∧ minAnchorX
      (rotateSegments [mkSegment 4 (-2) vertical; mkSegment 7 5 horizontal] 270)
    = Some 0
  ∧ minAnchorY
      (rotateSegments [mkSegment 4 (-2) vertical; mkSegment 7 5 horizontal] 270)
    = Some 0.
Proof.
  assert ([mkSegment 4 (-2) vertical; mkSegment 7 5 horizontal] ≠ []) as Hne
    by discriminate.
  assert ((270 : Z) ≠ 0) as Hr by discriminate.
  split; [exact Hne |]. split; [exact Hr |].
  exact (rotateSegments_min_zero _ 270 Hne Hr).
Defined.

(** X9: four quarter turns of a single segment give the segment back, for
    all integer coordinates and both orientations. *)
Theorem rotateSegment90Clockwise_four (segment : Segment) :
  Nat.iter 4 rotateSegment90Clockwise segment = segment.
Proof.
  destruct segment as [x y []]; cbn; unfold rotateSegment90Clockwise; cbn;
    f_equal; lia.
Qed.

Lemma rotate_translate dx dy seg :
  rotateSegment90Clockwise (translateSegment dx dy seg)
  = translateSegment dy (- dx) (rotateSegment90Clockwise seg).
Proof.
  destruct seg as [x y []]; unfold rotateSegment90Clockwise, translateSegment;
    cbn; f_equal; lia.
Qed.

Lemma rotate_iter_translate n dx dy segments :
  ∃ ex ey,
    Nat.iter n (map rotateSegment90Clockwise)
             (map (translateSegment dx dy) segments)
    = map (translateSegment ex ey)
          (Nat.iter n (map rotateSegment90Clockwise) segments).
Proof.
  induction n as [| n (ex & ey & IH)].
  - by exists dx, dy.
  - exists ey, (- ex). rewrite !Nat.iter_succ, IH, !map_map. apply map_ext. intros seg.
    apply rotate_translate.
Qed.

Lemma normalizeSegments_is_translate segments :
  ∃ dx dy, normalizeSegments segments = map (translateSegment dx dy) segments.
Proof.
  destruct segments as [| s0 rest]; [by exists 0, 0 |].
  destruct (minAnchor_is_Some (s0 :: rest)) as (mx & my & Hx & Hy); [done |].
  exists (- mx), (- my). by apply normalizeSegments_translate.
Qed.

Lemma rotateSegments_twice segments r1 r2 :
  r1 ≠ 0 → r2 ≠ 0 →
  rotateSegments (rotateSegments segments r1) r2
  = normalizeSegments
      (Nat.iter (rotationTimes r2 + rotationTimes r1)
                (map rotateSegment90Clockwise) segments).
Proof.
  intros H1 H2. unfold rotateSegments. repeat case_decide; try done.
  destruct (normalizeSegments_is_translate
              (Nat.iter (rotationTimes r1) (map rotateSegment90Clockwise)
                        segments)) as (dx & dy & ->).
  destruct (rotate_iter_translate (rotationTimes r2) dx dy
              (Nat.iter (rotationTimes r1) (map rotateSegment90Clockwise)
                        segments)) as (ex & ey & ->).
  by rewrite normalizeSegments_of_translate, Nat.iter_add.
Qed.

Lemma rotate_iter_four segments :
  Nat.iter 4 (map rotateSegment90Clockwise) segments = segments.
Proof.
  rewrite !Nat.iter_succ. cbn [Nat.iter nat_rect]. rewrite !map_map.
  rewrite <- (map_id segments) at 2. apply map_ext. intros seg.
  destruct seg as [x y []]; unfold rotateSegment90Clockwise; cbn; f_equal; lia.
Qed.

(** X10: rotating a list by one rotation and the result by a second one is
    rotating the list once by their sum, as long as the sum stays below a
    full turn: recomputing from the base pattern and rotating step by step
    agree. *)
Theorem rotateSegments_compose (segments : list Segment) (r1 r2 : Rotation) :
  validRotation r1 → validRotation r2 → r1 + r2 < 360 →
  rotateSegments (rotateSegments segments r1) r2
  = rotateSegments segments (r1 + r2).
Proof.
  intros H1 H2 Hsum.
  destruct (decide (r1 = 0)) as [-> | Hn1]; [done |].
  destruct (decide (r2 = 0)) as [-> | Hn2].
  { by rewrite Z.add_0_r. }
  rewrite rotateSegments_twice by done.
  unfold rotateSegments. case_decide as Hz.
  { exfalso. destruct H1 as [-> | [-> | [-> | ->]]],
      H2 as [-> | [-> | [-> | ->]]]; done. }
  do 2 f_equal.
  destruct H1 as [-> | [-> | [-> | ->]]], H2 as [-> | [-> | [-> | ->]]];
    try done; try (exfalso; lia).
Qed.

Lemma rotateSegments_compose_witness :
  validRotation 90 ∧ validRotation 180 ∧ 90 + 180 < 360
  ∧ rotateSegments (rotateSegments (SEGMENT_PATTERNS D4) 90) 180
    = rotateSegments (SEGMENT_PATTERNS D4) (90 + 180).
Proof.
  assert (validRotation 90) as H1 by (right; left; reflexivity).
  assert (validRotation 180) as H2 by (right; right; left; reflexivity).
  assert (90 + 180 < 360) as H3 by reflexivity.
  split; [exact H1 |]. split; [exact H2 |]. split; [exact H3 |].
  exact (rotateSegments_compose (SEGMENT_PATTERNS D4) 90 180 H1 H2 H3).
Defined.

(** X11: rotating a list by a non-zero rotation and the result by what is
    missing to a full turn gives the list itself, moved so that its smallest
    anchors are 0; on a list that is already a rotation result this is the
    list unchanged. *)
Theorem rotateSegments_full_turn (segments : list Segment) (r r0 : Rotation) :
  validRotation r → r ≠ 0 → r0 ≠ 0 →
  rotateSegments (rotateSegments segments r) (360 - r)
  = normalizeSegments segments
  ∧ rotateSegments (rotateSegments (rotateSegments segments r0) r) (360 - r)
    = rotateSegments segments r0.
Proof.
  intros Hr Hn Hn0.
  assert (∀ l, rotateSegments (rotateSegments l r) (360 - r)
               = normalizeSegments l) as Hturn.
  { intros l. rewrite rotateSegments_twice; [| done |].
    - replace (rotationTimes (360 - r)%Z + rotationTimes r)%nat with 4%nat.
      + by rewrite rotate_iter_four.
      + destruct Hr as [-> | [-> | [-> | ->]]]; done.
    - destruct Hr as [-> | [-> | [-> | ->]]]; done. }
  split; [apply Hturn |]. rewrite Hturn.
  unfold rotateSegments. case_decide; [done |].
  destruct (normalizeSegments_is_translate
              (Nat.iter (rotationTimes r0) (map rotateSegment90Clockwise)
                        segments)) as (dx & dy & Heq).
  rewrite Heq at 1. by rewrite normalizeSegments_of_translate.
Qed.

Lemma rotateSegments_full_turn_witness :
  validRotation 90 ∧ (90 : Z) ≠ 0 ∧ (180 : Z) ≠ 0
  ∧ rotateSegments (rotateSegments (SEGMENT_PATTERNS D1) 90) (360 - 90)
    = normalizeSegments (SEGMENT_PATTERNS D1)
  ∧ rotateSegments
      (rotateSegments (rotateSegments (SEGMENT_PATTERNS D1) 180) 90) (360 - 90)
    = rotateSegments (SEGMENT_PATTERNS D1) 180.
Proof.
  assert (validRotation 90) as H1 by (right; left; reflexivity).
  assert ((90 : Z) ≠ 0) as H2 by discriminate.
  assert ((180 : Z) ≠ 0) as H3 by discriminate.
  split; [exact H1 |]. split; [exact H2 |]. split; [exact H3 |].
  exact (rotateSegments_full_turn (SEGMENT_PATTERNS D1) 90 180 H1 H2 H3).
Defined.

(** ** Rotating pieces *)

(** X12: from a piece with a valid rotation, [rotatePiece] gives a piece
    with the same id and number, a valid rotation different from the old
    one, segments that are the derived view of the new rotation, and as many
    segments as the digit's base pattern. *)
Theorem rotatePiece_keeps_piece_well_formed (piece : Piece)
    (direction : Direction) :
  validRotation (piece_rotation piece) →
  let rotated := rotatePiece piece direction in
  piece_id rotated = piece_id piece
  ∧ piece_number rotated = piece_number piece
  ∧ validRotation (piece_rotation rotated)
  ∧ piece_rotation rotated ≠ piece_rotation piece
  ∧ piece_segments rotated = getPieceSegments rotated
  ∧ length (piece_segments rotated)
    = length (SEGMENT_PATTERNS (piece_number piece)).
Proof.
  intros Hr. cbn zeta. split; [done |]. split; [done |].
  split; [| split; [| split; [done |]]].
  - destruct piece as [i n r segs]. cbn [piece_rotation] in Hr.
    unfold validRotation, rotatePiece. cbn [piece_rotation].
    destruct direction, Hr as [-> | [-> | [-> | ->]]]; vm_compute; tauto.
  - destruct piece as [i n r segs]. cbn [piece_rotation] in Hr.
    unfold rotatePiece. cbn [piece_rotation].
    destruct direction, Hr as [-> | [-> | [-> | ->]]]; vm_compute;
      discriminate.
  - unfold rotatePiece. cbn [piece_segments piece_number].
    unfold rotateSegments. case_decide; [done |].
    by rewrite normalizeSegments_length, rotate_iter_length.
Qed.

Lemma rotatePiece_keeps_piece_well_formed_witness :
  validRotation (piece_rotation (initialPiece D5))
  ∧ validRotation
      (piece_rotation (rotatePiece (initialPiece D5) counterclockwise))
  ∧ piece_rotation (rotatePiece (initialPiece D5) counterclockwise)
    ≠ piece_rotation (initialPiece D5).
Proof.
  assert (validRotation (piece_rotation (initialPiece D5))) as Hr
    by (left; reflexivity).
  split; [exact Hr |].
  pose proof (rotatePiece_keeps_piece_well_formed (initialPiece D5)
                counterclockwise Hr) as (_ & _ & Hv & Hne & _).
  split; [exact Hv | exact Hne].
Defined.

(** X13: on a piece with a valid rotation whose segments are the derived
    view, a clockwise step followed by a counterclockwise step gives the
    piece back, and so does the opposite order. *)
Theorem rotatePiece_inverse (piece : Piece) :
  validRotation (piece_rotation piece) →
  piece_segments piece = getPieceSegments piece →
  rotatePiece (rotatePiece piece clockwise) counterclockwise = piece
  ∧ rotatePiece (rotatePiece piece counterclockwise) clockwise = piece.
Proof.
  destruct piece as [i n r segs]. cbn [piece_rotation piece_segments].
  intros Hr ->.
  destruct Hr as [-> | [-> | [-> | ->]]]; destruct n; split; reflexivity.
Qed.

Lemma rotatePiece_inverse_witness :
  rotatePiece (rotatePiece (initialPiece D2) clockwise) counterclockwise
  = initialPiece D2
  ∧ rotatePiece (rotatePiece (initialPiece D2) counterclockwise) clockwise
    = initialPiece D2.
Proof.
  apply (rotatePiece_inverse (initialPiece D2)).
  - left; reflexivity.
  - reflexivity.
Defined.

(** ** Segment identities *)

Lemma pretty_N_go_commaFree (x : N) (s : string) :
  commaFree s → commaFree (pretty_N_go x s).
Proof.
  revert s. induction (N.lt_wf_0 x) as [x _ IH]; intros s Hs.
  assert (x = 0 ∨ 0 < x)%N as [-> | Hpos] by lia.
  - by rewrite pretty_N_go_0.
  - rewrite pretty_N_go_step by done. apply IH.
    + by apply N.div_lt.
    + split; [| done]. unfold pretty_N_char. by repeat case_match.
Qed.

Lemma pretty_Z_commaFree (z : Z) : commaFree (pretty z).
Proof.
  assert (∀ n : N, commaFree (pretty n)) as HN.
  { intros n. unfold pretty, pretty_N. case_decide; [by vm_compute |].
    by apply pretty_N_go_commaFree. }
  destruct z as [| p | p]; unfold pretty, pretty_Z.
  - by vm_compute.
  - apply HN.
  - split; [done | apply HN].
Qed.

Lemma append_comma_inj (s1 s2 t1 t2 : string) :
  commaFree s1 → commaFree s2 →
  s1 +:+ String "," t1 = s2 +:+ String "," t2 → s1 = s2 ∧ t1 = t2.
Proof.
  revert s2. induction s1 as [| a s1 IH]; intros [| b s2]; cbn.
  - by intros _ _ [= ->].
  - intros _ [Hb _] [= <- _]. done.
  - intros [Ha _] _ [= -> _]. done.
  - intros [_ H1] [_ H2] [= -> Heq]. by destruct (IH _ H1 H2 Heq) as [-> ->].
Qed.

Lemma segmentToId_injective (a b : Segment) :
  segmentToId a = segmentToId b → a = b.
Proof.
  destruct a as [xa ya oa], b as [xb yb ob]. unfold segmentToId.
  cbn [seg_x seg_y seg_orientation]. intros Heq.
  change (pretty xa +:+ String "," (pretty ya +:+ String "," match oa with
            | horizontal => "h" | vertical => "v" end)
          = pretty xb +:+ String "," (pretty yb +:+ String "," match ob with
            | horizontal => "h" | vertical => "v" end)) in Heq.
  apply append_comma_inj in Heq as [Hx Heq]; try apply pretty_Z_commaFree.
  apply append_comma_inj in Heq as [Hy Ho]; try apply pretty_Z_commaFree.
  apply (inj pretty) in Hx. apply (inj pretty) in Hy. subst.
  by destruct oa, ob.
Qed.

(** X14: [segmentToId] is injective: two segments have the same identity
    string exactly when they are the same segment, for all integer
    coordinates, negative ones included. *)
Theorem segmentToId_inj (a b : Segment) :
  segmentToId a = segmentToId b ↔ a = b.
Proof. split; [apply segmentToId_injective | by intros ->]. Qed.

(** X15: an identity is in a piece's footprint at a position exactly when
    it is the identity of one of the piece's absolute segments there. *)
Theorem elem_of_footprint (piece : Piece) (position : BoardPosition)
    (seg : Segment) :
  segmentToId seg ∈ footprint piece position
  ↔ seg ∈ getPieceSegmentPositions piece position.
Proof.
  unfold footprint. rewrite elem_of_list_to_set, map_is_fmap, list_elem_of_fmap.
  split.
  - intros (seg' & Heq & Hin). by rewrite (segmentToId_injective _ _ Heq).
  - intros Hin. eauto.
Qed.

(** ** More about the reducer *)

Lemma replacePlaced_same piece position placed :
  NoDup (map placedId placed) → mkPlaced piece position ∈ placed →
  replacePlaced piece position placed = placed.
Proof.
  intros Hnd Hin. unfold replacePlaced.
  rewrite <- (map_id placed) at 2. apply map_ext_in. intros q Hq.
  apply list_elem_of_In in Hq. case_decide as Hid; [| done].
  symmetry. by apply (placedId_inj placed).
Qed.

(** X16: with no drag in progress, a pickup followed at once by a cancel
    gives the state back: always for a pickup from the inventory or a board
    pickup without position, and for a board pickup at a position when the
    piece's identities there were all occupied. *)
Theorem pick_up_then_cancel (s : GameState) (piece : Piece)
    (source : SourceType) (position : option BoardPosition) :
  dragState s = None →
  match source, position with
  | board_source, Some pos =>
      footprint piece pos ⊆ occupiedSegments (board s)
  | _, _ => True
  end →
  gameReducer (gameReducer s (PICK_UP_PIECE piece source position)) CANCEL_DRAG
  = s.
Proof.
  destruct s as [[placed occ] inv drag]. cbn [dragState]. intros -> Hocc.
  destruct source, position as [pos |]; try reflexivity.
  cbn [board occupiedSegments] in Hocc.
  cbn [gameReducer]. unfold withOccupied, withDrag. cbn [dragState].
  unfold returnToSource, withOccupied.
  cbn [sourceType sourcePosition sourcePiece board placedPieces
       occupiedSegments inventory default from_option id drag_piece].
  rewrite updateOccupiedSegments_add, updateOccupiedSegments_remove.
  do 2 f_equal. apply set_eq. intros i. rewrite elem_of_union, elem_of_difference.
  destruct (decide (i ∈ footprint piece pos)); set_solver.
Qed.

Lemma pick_up_then_cancel_witness :
  dragState afterPlacingOne = None
  ∧ footprint (initialPiece D1) (mkPos 2 1)
    ⊆ occupiedSegments (board afterPlacingOne)
  ∧ gameReducer
      (gameReducer afterPlacingOne
         (PICK_UP_PIECE (initialPiece D1) board_source (Some (mkPos 2 1))))
      CANCEL_DRAG
    = afterPlacingOne.
Proof.
  assert (footprint (initialPiece D1) (mkPos 2 1)
          ⊆ occupiedSegments (board afterPlacingOne)) as Hsub.
  { apply (bool_decide_unpack _). vm_compute. exact I. }
  split; [reflexivity |]. split; [exact Hsub |].
  exact (pick_up_then_cancel afterPlacingOne (initialPiece D1) board_source
           (Some (mkPos 2 1)) eq_refl Hsub).
Defined.

(** X17: in a state reached through actions the calling layer may dispatch,
    lifting a placed piece and dropping it on the position it came from
    gives the state back, whether the drop is accepted or rejected: the
    piece never collides with itself. *)
Theorem pick_up_then_drop_in_place (s : GameState) (piece : Piece)
    (position : BoardPosition) :
  reachable s → dragState s = None →
  mkPlaced piece position ∈ placedPieces (board s) →
  gameReducer
    (gameReducer s (PICK_UP_PIECE piece board_source (Some position)))
    (DROP_PIECE position)
  = s.
Proof.
  intros Hs Hnone Hin. apply reachable_consistent in Hs.
  destruct s as [[placed occ] inv drag]. cbn [dragState] in Hnone. subst drag.
  destruct Hs as (Hnd & _ & _ & Hocc & _).
  unfold occupancyMatches in Hocc.
  cbn [board placedPieces occupiedSegments dragState] in *.
  pose proof (placedFootprint_subseteq _ _ Hin) as Hsub. rewrite <- Hocc in Hsub.
  change (placedFootprint (mkPlaced piece position))
    with (footprint piece position) in Hsub.
  assert ((occ ∖ footprint piece position) ∪ footprint piece position = occ)
    as Hback.
  { apply set_eq. intros i. rewrite elem_of_union, elem_of_difference.
    destruct (decide (i ∈ footprint piece position)); set_solver. }
  cbn [gameReducer]. unfold withOccupied.
  cbn [dragState board placedPieces occupiedSegments inventory drag_piece].
  rewrite updateOccupiedSegments_remove.
  destruct (checkCollision _ _ _).
  - unfold returnToSource, withOccupied.
    cbn [sourceType sourcePosition sourcePiece board placedPieces
         occupiedSegments inventory default from_option id drag_piece].
    rewrite updateOccupiedSegments_add. by rewrite Hback.
  - unfold dropPlace.
    cbn [sourceType sourcePosition sourcePiece board placedPieces
         occupiedSegments inventory drag_piece].
    rewrite updateOccupiedSegments_add, Hback.
    by rewrite (replacePlaced_same _ _ _ Hnd Hin).
Qed.

Lemma pick_up_then_drop_in_place_witness :
  reachable afterPlacingOne
  ∧ dragState afterPlacingOne = None
  ∧ mkPlaced (initialPiece D1) (mkPos 2 1)
    ∈ placedPieces (board afterPlacingOne)
  ∧ gameReducer
      (gameReducer afterPlacingOne
         (PICK_UP_PIECE (initialPiece D1) board_source (Some (mkPos 2 1))))
      (DROP_PIECE (mkPos 2 1))
    = afterPlacingOne.
Proof.
  assert (mkPlaced (initialPiece D1) (mkPos 2 1)
          ∈ placedPieces (board afterPlacingOne)) as Hin.
  { apply (bool_decide_unpack _). vm_compute. exact I. }
  split; [exact reachable_afterPlacingOne |].
  split; [reflexivity |]. split; [exact Hin |].
  exact (pick_up_then_drop_in_place afterPlacingOne (initialPiece D1)
           (mkPos 2 1) reachable_afterPlacingOne eq_refl Hin).
Defined.

(** X18: [ROTATE_PIECE] with an id that is neither in the inventory nor the
    dragged piece's returns the state unchanged; in particular a piece that
    is only placed on the board is not rotated. *)
Theorem rotate_unknown_id (s : GameState) (pieceId : string)
    (direction : Direction) :
  pieceId ∉ inventoryIds s →
  (∀ d, dragState s = Some d → piece_id (drag_piece d) ≠ pieceId) →
  gameReducer s (ROTATE_PIECE pieceId direction) = s.
Proof.
  intros Hinv Hdrag. cbn [gameReducer].
  assert (list_find (hasId pieceId) (inventory s) = None) as ->.
  { apply list_find_None, Forall_forall. intros p Hp Hid. apply Hinv.
    unfold inventoryIds, hasId in *. rewrite map_is_fmap, <- Hid.
    by apply list_elem_of_fmap_2. }
  destruct (dragState s) as [d |]; [| done].
  by rewrite bool_decide_eq_false_2 by by apply Hdrag.
Qed.

Lemma rotate_unknown_id_witness :
  ("piece-1" ∉ inventoryIds afterPlacingOne)
  ∧ (∀ d, dragState afterPlacingOne = Some d →
          piece_id (drag_piece d) ≠ "piece-1")
  ∧ gameReducer afterPlacingOne (ROTATE_PIECE "piece-1" clockwise)
    = afterPlacingOne.
Proof.
  assert ("piece-1" ∉ inventoryIds afterPlacingOne) as Hinv.
  { apply (bool_decide_unpack _). vm_compute. exact I. }
  assert (∀ d, dragState afterPlacingOne = Some d →
               piece_id (drag_piece d) ≠ "piece-1") as Hdrag.
  { intros d Hd. discriminate Hd. }
  split; [exact Hinv |]. split; [exact Hdrag |].
  exact (rotate_unknown_id afterPlacingOne "piece-1" clockwise Hinv Hdrag).
Defined.

(** X19: [ROTATE_PIECE] with an id found in the inventory rotates the first
    inventory piece with that id, in place, and nothing else in the
    inventory; the board is left as it was. *)
Theorem rotate_first_match (s : GameState) (before after : list Piece)
    (piece : Piece) (direction : Direction) :
  inventory s = before ++ piece :: after →
  piece_id piece ∉ map piece_id before →
  let s' := gameReducer s (ROTATE_PIECE (piece_id piece) direction) in
  inventory s' = before ++ rotatePiece piece direction :: after
  ∧ board s' = board s.
Proof.
  intros Hinv Hfirst. cbn zeta. cbn [gameReducer].
  assert (list_find (hasId (piece_id piece)) (inventory s)
          = Some (length before, piece)) as ->.
  { apply list_find_Some. rewrite Hinv. split; [apply list_lookup_middle; done |].
    split; [done |]. intros j q Hj Hlt Hid. apply Hfirst.
    rewrite lookup_app_l in Hj by done. unfold hasId in Hid.
    rewrite map_is_fmap, <- Hid. apply list_elem_of_fmap_2.
    apply list_elem_of_lookup. eauto. }
  assert (<[length before := rotatePiece piece direction]> (inventory s)
          = before ++ rotatePiece piece direction :: after) as Hins.
  { rewrite Hinv. replace (length before) with (length before + 0)%nat by lia.
    by rewrite insert_app_r. }
  destruct (dragState s) as [d |]; [destruct (bool_decide _) |];
    cbn [inventory board]; by rewrite Hins.
Qed.

Lemma rotate_first_match_witness :
  inventory getInitialState
  = [initialPiece D0] ++ initialPiece D1 :: map initialPiece
      [D2; D3; D4; D5; D6; D7; D8; D9]
  ∧ (piece_id (initialPiece D1) ∉ map piece_id [initialPiece D0])
  ∧ inventory (gameReducer getInitialState
                 (ROTATE_PIECE (piece_id (initialPiece D1)) clockwise))
    = [initialPiece D0] ++ rotatePiece (initialPiece D1) clockwise
        :: map initialPiece [D2; D3; D4; D5; D6; D7; D8; D9].
Proof.
  assert (piece_id (initialPiece D1) ∉ map piece_id [initialPiece D0]) as Hf.
  { apply (bool_decide_unpack _). vm_compute. exact I. }
  split; [reflexivity |]. split; [exact Hf |].
  exact (proj1 (rotate_first_match getInitialState [initialPiece D0]
                  (map initialPiece [D2; D3; D4; D5; D6; D7; D8; D9])
                  (initialPiece D1) clockwise eq_refl Hf)).
Defined.

(** X20: whatever the state, a drop, a cancel and a return to the inventory
    all end with no drag in progress. *)
Theorem drag_always_cleared (s : GameState) (position : BoardPosition)
    (piece : Piece) :
  dragState (gameReducer s (DROP_PIECE position)) = None
  ∧ dragState (gameReducer s CANCEL_DRAG) = None
  ∧ dragState (gameReducer s (RETURN_TO_INVENTORY piece)) = None.
Proof.
  destruct s as [[placed occ] inv [[dp source spos spiece] |]];
    cbn [gameReducer dragState]; [| done].
  split; [| split].
  - destruct (checkCollision _ _ _), source, spos; reflexivity.
  - destruct source, spos; reflexivity.
  - destruct source; reflexivity.
Qed.

Lemma onBoard_step s a : onBoard s → loadsOnBoard a → onBoard (gameReducer s a).
Proof.
  intros Hs Ha.
  assert (∀ s', (∀ pp, pp ∈ placedPieces (board s') →
                       pp ∈ placedPieces (board s)) → onBoard s') as Hsub.
  { intros s' Hincl pp seg Hpp. apply Hs. by apply Hincl. }
  assert (∀ d position,
            checkCollision (drag_piece d) position
                           (occupiedSegments (board s)) = false →
            onBoard (dropPlace s d position)) as Hplace.
  { intros d position Hfree pp seg Hpp Hseg.
    assert (pp ∈ placedPieces (board s)
            ∨ pp = mkPlaced (drag_piece d) position) as [Hold | ->].
    { unfold dropPlace in Hpp.
      destruct (sourceType d), (sourcePosition d);
        cbn [board placedPieces withDrag] in Hpp.
      - apply elem_of_app in Hpp as [? | Hnew]; [by left |].
        apply list_elem_of_singleton in Hnew. by right.
      - apply elem_of_app in Hpp as [? | Hnew]; [by left |].
        apply list_elem_of_singleton in Hnew. by right.
      - apply elem_of_replacePlaced in Hpp as [[-> _] | [? _]]; auto.
      - by left. }
    - by apply (Hs pp).
    - cbn [placed_piece placed_position] in Hseg.
      apply outOfBounds_false. unfold checkCollision in Hfree.
      destruct (outOfBounds seg) eqn:Hout; [| done].
      assert (collisionLoop
                (getPieceSegmentPositions (drag_piece d) position)
                (occupiedSegments (board s)) = true) as Htrue.
      { apply collisionLoop_true. exists seg. split; [done |]. left.
        by apply outOfBounds_true. }
      congruence. }
  destruct a as [piece source position | position | | pieceId direction
                | piece | | payload]; cbn [gameReducer].
  - apply Hsub. by destruct source, position.
  - destruct (dragState s) as [d |]; [| done].
    destruct (checkCollision _ _ _) eqn:Hcol; [| by apply Hplace].
    unfold returnToSource, dropPlace.
    destruct (sourceType d), (sourcePosition d); by apply Hsub.
  - destruct (dragState s) as [d |]; [| done].
    unfold returnToSource. destruct (sourceType d), (sourcePosition d);
      by apply Hsub.
  - apply Hsub.
    destruct (list_find _ _) as [[i p] |], (dragState s) as [d |];
      try destruct (bool_decide _); done.
  - assert (∀ pp, pp ∈ filter (λ p, piece_id (placed_piece p) ≠ piece_id piece)
                              (placedPieces (board s)) →
                  pp ∈ placedPieces (board s)) as Hfilter.
    { intros pp Hpp. by apply list_elem_of_filter in Hpp as [_ ?]. }
    destruct (dragState s) as [[dp [] spos spiece] |]; by apply Hsub.
  - intros pp seg Hpp. inversion Hpp.
  - exact Ha.
Qed.

Lemma onBoard_run actions s :
  onBoard s → Forall loadsOnBoard actions → onBoard (runActions s actions).
Proof.
  revert s. induction actions as [| a rest IH]; intros s Hs Hall; [done |].
  apply Forall_cons in Hall as [Ha Hrest].
  cbn [runActions fold_left]. apply IH; [| done]. by apply onBoard_step.
Qed.

(** X21: whatever actions are dispatched from the initial state, with or
    without the calling layer's care, every placed piece lies entirely on
    the board; only a loaded state can bring in a piece that does not, so
    loaded states are asked to satisfy the same. *)
Theorem placed_pieces_stay_on_board (actions : list GameAction) :
  Forall loadsOnBoard actions →
  onBoard (runActions getInitialState actions).
Proof.
  apply onBoard_run. intros pp seg Hpp. inversion Hpp.
Qed.

Lemma placed_pieces_stay_on_board_witness :
  Forall loadsOnBoard
    [PICK_UP_PIECE (initialPiece D1) inventory_source None;
     DROP_PIECE (mkPos 2 1)]
  ∧ onBoard afterPlacingOne.
Proof.
  assert (Forall loadsOnBoard
            [PICK_UP_PIECE (initialPiece D1) inventory_source None;
             DROP_PIECE (mkPos 2 1)]) as Hall.
  { repeat constructor. }
  split; [exact Hall |].
  exact (placed_pieces_stay_on_board _ Hall).
Defined.

Lemma filter_placed_idempotent (i : string) (placed : list PlacedPiece) :
  filter (λ p, piece_id (placed_piece p) ≠ i)
         (filter (λ p, piece_id (placed_piece p) ≠ i) placed)
  = filter (λ p, piece_id (placed_piece p) ≠ i) placed.
Proof.
  induction placed as [| x l IH]; [done |].
  rewrite filter_cons. case_decide as Hx; [| done].
  rewrite filter_cons, decide_True by done. by rewrite IH.
Qed.

Lemma list_find_filtered_out (i : string) (placed : list PlacedPiece) :
  list_find (placedHasId i) (filter (λ p, piece_id (placed_piece p) ≠ i) placed)
  = None.
Proof.
  apply list_find_None, Forall_forall. intros pp Hpp Hid.
  by apply list_elem_of_filter in Hpp as [Hne _].
Qed.

(** X22: returning a piece to the inventory twice is the same as returning
    it once, when the first return is not taken as the cancel of a drag from
    the inventory: the second call finds the piece neither placed nor
    missing from the inventory, so no duplicate is appended. *)
Theorem return_to_inventory_twice (s : GameState) (piece : Piece) :
  match dragState s with
  | Some d => sourceType d = board_source
  | None => True
  end →
  gameReducer (gameReducer s (RETURN_TO_INVENTORY piece))
              (RETURN_TO_INVENTORY piece)
  = gameReducer s (RETURN_TO_INVENTORY piece).
Proof.
  intros Hsource.
  assert (∃ occ', gameReducer s (RETURN_TO_INVENTORY piece)
          = mkState
              (mkBoard
                 (filter (λ p, piece_id (placed_piece p) ≠ piece_id piece)
                         (placedPieces (board s)))
                 occ')
              (if bool_decide (Exists (hasId (piece_id piece)) (inventory s))
               then inventory s else inventory s ++ [piece])
              None) as [occ' ->].
  { cbn [gameReducer]. destruct (dragState s) as [[dp [] spos spiece] |];
      [discriminate Hsource | eauto | eauto]. }
  cbn [gameReducer dragState board placedPieces occupiedSegments inventory].
  rewrite list_find_filtered_out, filter_placed_idempotent.
  assert (Exists (hasId (piece_id piece))
            (if bool_decide (Exists (hasId (piece_id piece)) (inventory s))
             then inventory s else inventory s ++ [piece])) as Hex.
  { case_bool_decide as Hin; [done |].
    apply Exists_exists. exists piece. split; [| done].
    apply elem_of_app. right. constructor. }
  by rewrite (bool_decide_eq_true_2 _ Hex).
Qed.

Lemma return_to_inventory_twice_witness :
  gameReducer (gameReducer draggingFromBoard
                 (RETURN_TO_INVENTORY (initialPiece D1)))
              (RETURN_TO_INVENTORY (initialPiece D1))
  = gameReducer draggingFromBoard (RETURN_TO_INVENTORY (initialPiece D1)).
Proof.
  apply (return_to_inventory_twice draggingFromBoard (initialPiece D1)).
  reflexivity.
Defined.

(** X23: during a drag from the board that carries its snapshot, rotating
    the dragged piece changes nothing of what a cancel gives: the occupancy
    restored is the snapshot's, not the rotated piece's. *)
Theorem rotate_then_cancel_board_drag (s : GameState) (d : DragState)
    (direction : Direction) :
  dragState s = Some d →
  sourceType d = board_source →
  is_Some (sourcePiece d) →
  piece_id (drag_piece d) ∉ inventoryIds s →
  gameReducer
    (gameReducer s (ROTATE_PIECE (piece_id (drag_piece d)) direction))
    CANCEL_DRAG
  = gameReducer s CANCEL_DRAG.
Proof.
  intros Hd Hsource [sp Hsp] Hinv. cbn [gameReducer].
  assert (list_find (hasId (piece_id (drag_piece d))) (inventory s) = None)
    as ->.
  { apply list_find_None, Forall_forall. intros p Hp Hid. apply Hinv.
    unfold inventoryIds, hasId in *. rewrite map_is_fmap, <- Hid.
    by apply list_elem_of_fmap_2. }
  rewrite Hd, bool_decide_eq_true_2 by done.
  cbn [dragState]. unfold returnToSource.
  cbn [sourceType sourcePosition sourcePiece drag_piece].
  rewrite Hsource, Hsp. destruct (sourcePosition d); reflexivity.
Qed.

Lemma rotate_then_cancel_board_drag_witness :
  gameReducer
    (gameReducer draggingFromBoard (ROTATE_PIECE "piece-1" clockwise))
    CANCEL_DRAG
  = gameReducer draggingFromBoard CANCEL_DRAG.
Proof.
  apply (rotate_then_cancel_board_drag draggingFromBoard
           (mkDrag (initialPiece D1) board_source (Some (mkPos 2 1))
                   (Some (initialPiece D1)))
           clockwise eq_refl eq_refl).
  - by eexists.
  - apply (bool_decide_unpack _). vm_compute. exact I.
Defined.

(** X24: a drop from the inventory that does not collide appends the piece
    at the drop position to the placed pieces, adds exactly its identities,
    which were all free and belong to board segments, to the occupied set,
    removes every piece with its id from the inventory and ends the drag. *)
Theorem drop_from_inventory_places (s : GameState) (d : DragState)
    (position : BoardPosition) :
  dragState s = Some d →
  sourceType d = inventory_source →
  checkCollision (drag_piece d) position (occupiedSegments (board s)) = false →
  let s' := gameReducer s (DROP_PIECE position) in
  placedPieces (board s')
  = placedPieces (board s) ++ [mkPlaced (drag_piece d) position]
  ∧ occupiedSegments (board s')
    = occupiedSegments (board s) ∪ footprint (drag_piece d) position
  ∧ footprint (drag_piece d) position ## occupiedSegments (board s)
  ∧ (∀ seg, seg ∈ getPieceSegmentPositions (drag_piece d) position →
            seg ∈ getAllBoardSegments)
  ∧ inventory s'
    = filter (λ p, piece_id p ≠ piece_id (drag_piece d)) (inventory s)
  ∧ (piece_id (drag_piece d) ∉ inventoryIds s')
  ∧ dragState s' = None.
Proof.
  intros Hd Hsource Hfree. cbn zeta. cbn [gameReducer].
  rewrite Hd, Hfree. unfold dropPlace. rewrite Hsource.
  cbn [board placedPieces occupiedSegments inventory dragState].
  rewrite updateOccupiedSegments_add.
  split; [done |]. split; [done |].
  split; [by apply checkCollision_false_disjoint |].
  split; [| split; [done |]; split; [| done]].
  - intros seg Hseg. apply outOfBounds_false.
    destruct (outOfBounds seg) eqn:Hout; [| done].
    assert (collisionLoop (getPieceSegmentPositions (drag_piece d) position)
              (occupiedSegments (board s)) = true) as Htrue.
    { apply collisionLoop_true. exists seg. split; [done |]. left.
      by apply outOfBounds_true. }
    unfold checkCollision in Hfree. congruence.
  - unfold inventoryIds. cbn [inventory]. rewrite map_is_fmap.
    intros Hin. apply list_elem_of_fmap in Hin as (p & Hid & Hp).
    apply list_elem_of_filter in Hp as [Hne _]. by apply Hne.
Qed.

Lemma drop_from_inventory_places_witness :
  placedPieces
    (board (gameReducer
              (gameReducer getInitialState
                 (PICK_UP_PIECE (initialPiece D1) inventory_source None))
              (DROP_PIECE (mkPos 2 1))))
  = placedPieces
      (board (gameReducer getInitialState
                (PICK_UP_PIECE (initialPiece D1) inventory_source None)))
    ++ [mkPlaced (initialPiece D1) (mkPos 2 1)].
Proof.
  apply (drop_from_inventory_places
           (gameReducer getInitialState
              (PICK_UP_PIECE (initialPiece D1) inventory_source None))
           (mkDrag (initialPiece D1) inventory_source None None)
           (mkPos 2 1) eq_refl eq_refl eq_refl).
Defined.

Lemma placedUnion_on_board s i :
  onBoard s → i ∈ placedUnion (placedPieces (board s)) →
  ∃ seg, seg ∈ getAllBoardSegments ∧ segmentToId seg = i.
Proof.
  intros Hon Hi. apply elem_of_placedUnion in Hi as (pp & Hpp & Hi).
  unfold placedFootprint, footprint in Hi.
  apply elem_of_list_to_set in Hi. rewrite map_is_fmap in Hi.
  apply list_elem_of_fmap in Hi as (seg & -> & Hseg).
  exists seg. split; [| done]. by apply (Hon pp).
Qed.

(** X25: in a state reached through actions the calling layer may dispatch
    and whose placed pieces lie on the board, every occupied identity is the
    identity of one of the board's segments, so at most 49 identities are
    occupied. *)
Theorem occupied_within_board (s : GameState) :
  reachable s → onBoard s →
  (∀ i, i ∈ occupiedSegments (board s) →
        ∃ seg, seg ∈ getAllBoardSegments ∧ segmentToId seg = i)
  ∧ (size (occupiedSegments (board s)) ≤ 49)%nat.
Proof.
  intros Hs Hon.
  assert (occupiedSegments (board s) ⊆ placedUnion (placedPieces (board s)))
    as Hsub.
  { apply reachable_consistent in Hs as (_ & _ & _ & Hocc & _).
    unfold occupancyMatches in Hocc.
    destruct (dragState s) as [d |]; [destruct (sourceType d) |].
    - by rewrite Hocc.
    - destruct Hocc as (sp & pos & _ & _ & _ & ->). set_solver.
    - by rewrite Hocc. }
  assert (∀ i, i ∈ occupiedSegments (board s) →
               ∃ seg, seg ∈ getAllBoardSegments ∧ segmentToId seg = i) as Hall.
  { intros i Hi. apply (placedUnion_on_board s); [done |]. by apply Hsub. }
  split; [exact Hall |].
  assert (occupiedSegments (board s)
          ⊆ list_to_set (segmentToId <$> getAllBoardSegments)) as Hids.
  { intros i Hi. destruct (Hall i Hi) as (seg & Hseg & <-).
    apply elem_of_list_to_set. by apply list_elem_of_fmap_2. }
  apply subseteq_size in Hids. etrans; [exact Hids |].
  apply Nat.eq_le_incl. by vm_compute.
Qed.

Lemma occupied_within_board_witness :
  reachable afterPlacingOne ∧ onBoard afterPlacingOne
  ∧ (size (occupiedSegments (board afterPlacingOne)) ≤ 49)%nat.
Proof.
  assert (onBoard afterPlacingOne) as Hon.
  { apply (onBoard_run
             [PICK_UP_PIECE (initialPiece D1) inventory_source None;
              DROP_PIECE (mkPos 2 1)] getInitialState).
    - intros pp seg Hpp. inversion Hpp.
    - repeat constructor. }
  split; [exact reachable_afterPlacingOne |]. split; [exact Hon |].
  exact (proj2 (occupied_within_board afterPlacingOne
                  reachable_afterPlacingOne Hon)).
Defined.

(** X26: a drop from the board (with its source position) that does not
    collide keeps the number and the ids of the placed pieces, puts the
    dragged piece at the drop position in every entry with its id, leaves
    the other entries and the inventory as they were, adds the piece's
    identities to the occupied set and ends the drag. *)
Theorem drop_from_board_moves (s : GameState) (d : DragState)
    (position : BoardPosition) :
  dragState s = Some d →
  sourceType d = board_source →
  is_Some (sourcePosition d) →
  checkCollision (drag_piece d) position (occupiedSegments (board s)) = false →
  let s' := gameReducer s (DROP_PIECE position) in
  length (placedPieces (board s')) = length (placedPieces (board s))
  ∧ placedIds s' = placedIds s
  ∧ (∀ pp, pp ∈ placedPieces (board s') ↔
           (pp = mkPlaced (drag_piece d) position
            ∧ piece_id (drag_piece d) ∈ placedIds s)
           ∨ (pp ∈ placedPieces (board s)
              ∧ placedId pp ≠ piece_id (drag_piece d)))
  ∧ inventory s' = inventory s
  ∧ occupiedSegments (board s')
    = occupiedSegments (board s) ∪ footprint (drag_piece d) position
  ∧ dragState s' = None.
Proof.
  intros Hd Hsource [sp Hsp] Hfree. cbn zeta. cbn [gameReducer].
  rewrite Hd, Hfree. unfold dropPlace. rewrite Hsource, Hsp.
  unfold placedIds.
  cbn [board placedPieces occupiedSegments inventory dragState].
  rewrite updateOccupiedSegments_add, replacePlaced_ids.
  split; [by rewrite <- (length_map placedId), replacePlaced_ids, length_map |].
  split; [done |]. split; [| done].
  intros pp. apply elem_of_replacePlaced.
Qed.

Lemma drop_from_board_moves_witness :
  placedPieces
    (board (gameReducer draggingFromBoard (DROP_PIECE (mkPos 0 0))))
  = [mkPlaced (initialPiece D1) (mkPos 0 0)]
  ∧ length
      (placedPieces
         (board (gameReducer draggingFromBoard (DROP_PIECE (mkPos 0 0)))))
    = length (placedPieces (board draggingFromBoard)).
Proof.
  split; [reflexivity |].
  apply (drop_from_board_moves draggingFromBoard
           (mkDrag (initialPiece D1) board_source (Some (mkPos 2 1))
                   (Some (initialPiece D1)))
           (mkPos 0 0) eq_refl eq_refl).
  - by eexists.
  - reflexivity.
Defined.
